(** * ArborX moving least squares interpolation operator

    A shallow embedding of
    [src/interpolation/ArborX_InterpMovingLeastSquares.hpp]:
    the class [MovingLeastSquares], its constructor, the member function
    [fillValuesIndicesAndGetSourceView] and the member function
    [interpolate], followed by the properties of the operator.

    Conventions of the embedding.
    - A C++ [int] is a [Z] between [INT_MIN] and [INT_MAX].  The sizes
      that the access traits report are not bounded: where the
      constructor stores one in an [int] (lines 128 and 129) it is
      converted with [to_int], which wraps around.  The extents of the
      views of the class are [nat]; they come from [int]s and are read
      back through [Z.of_nat].  The lengths of the arrays of the caller
      of [interpolate] are taken to fit an [int].
    - A [Kokkos::View] is a list of cells.  A cell is [None] as long as it
      has not been written (views are allocated [WithoutInitializing]).
      Reading outside the extents or reading an unwritten cell is
      undefined behaviour in C++; here it ends the run with [OutOfBounds]
      or [UninitializedRead].
    - Member functions are state transformers over the objects they can
      write, in a state and error monad that also keeps a log of the
      calls to the collaborators and of the writes to the output view.
    - A [Kokkos::parallel_for] runs its iterations one after the other in
      the order chosen by the execution space, which may be any
      arrangement of the index range.  Every iteration of the two loops
      of the class writes only the cells of its own index.
    - The arithmetic of the values is a parameter: the model fixes the
      order of the operations, not their laws.  Properties that depend
      on the laws are stated for exact arithmetic (a commutative ring)
      and for rounded arithmetic (every result within a relative error
      [u] of the number it stands for). *)

From stdpp Require Import base list numbers.
From Stdlib Require Import ZArith Lia Ring QArith Qabs Qpower Lqa.

Local Open Scope Z_scope.

(** ** Outcomes, events and the execution monad *)

Inductive error : Type :=
  | ConfigurationError
  | ContractViolation
  | NumericalError
  | AllocationFailure
  | OutOfBounds
  | UninitializedRead.

Inductive event : Type :=
  | EvBuildTree
  | EvQuery
  | EvSolve
  | EvRealloc (n : Z)
  | EvWriteApprox (i : Z).

Inductive outcome (X : Type) : Type :=
  | Ok (x : X)
  | Abort (e : error).
Arguments Ok {X} x.
Arguments Abort {X} e.

Definition Exec (S X : Type) : Type :=
  S -> list event -> outcome X * S * list event.

Definition ret {S X} (x : X) : Exec S X :=
  fun s tr => (Ok x, s, tr).

Definition bind {S X Y} (m : Exec S X) (k : X -> Exec S Y) : Exec S Y :=
  fun s tr =>
    match m s tr with
    | (Ok x, s', tr') => k x s' tr'
    | (Abort e, s', tr') => (Abort e, s', tr')
    end.

Definition abort {S X} (e : error) : Exec S X :=
  fun s tr => (Abort e, s, tr).

Definition emit {S} (ev : event) : Exec S unit :=
  fun s tr => (Ok tt, s, tr ++ [ev]).

Definition gets {S X} (f : S -> X) : Exec S X :=
  fun s tr => (Ok (f s), s, tr).

Definition modify {S} (f : S -> S) : Exec S unit :=
  fun s tr => (Ok tt, f s, tr).

Definition lift {S X} (o : outcome X) : Exec S X :=
  match o with
  | Ok x => ret x
  | Abort e => abort e
  end.

Declare Scope exec_scope.
Delimit Scope exec_scope with exec.
Notation "x <- m ;; k" := (bind m (fun x => k))
  (at level 100, m at next level, k at level 200, right associativity)
  : exec_scope.
Notation "m ;; k" := (bind m (fun _ => k))
  (at level 100, k at level 200, right associativity) : exec_scope.
Local Open Scope exec_scope.

(** A block with a local variable [l]: the body runs on the pair of the
    enclosing state and the local, which is handed back at the end. *)
Definition with_local {S L X} (init : L) (m : Exec (S * L) X)
  : Exec S (X * L) :=
  fun s tr =>
    match m (s, init) tr with
    | (Ok x, (s', l), tr') => (Ok (x, l), s', tr')
    | (Abort e, (s', _), tr') => (Abort e, s', tr')
    end.

(** Modelled from the spec: [KOKKOS_ASSERT] is a macro of Kokkos, which is
    not part of the sources.  A violated assertion stops the call at once;
    the specification classifies the stop by the place of the assertion
    (a configuration error in the constructor, a contract violation in
    [interpolate]), which is the [kind] given here. *)
Definition KOKKOS_ASSERT {S} (kind : error) (cond : bool) : Exec S unit :=
  if cond then ret tt else abort kind.

(** Loops. [for_each] runs a body over the indices of a list, in order;
    [for_fold] does the same for a body that updates a local accumulator. *)
Fixpoint for_each {S I} (l : list I) (body : I -> Exec S unit) : Exec S unit :=
  match l with
  | [] => ret tt
  | i :: l' => body i ;; for_each l' body
  end.

Fixpoint for_fold {S I T} (l : list I) (body : I -> T -> Exec S T) (acc : T)
  : Exec S T :=
  match l with
  | [] => ret acc
  | i :: l' => acc' <- body i acc ;; for_fold l' body acc'
  end.

(** The indices [b, b+1, ..., e-1] and the pairs of a two-dimensional
    range, first index outermost. *)
Definition Zrange (b e : Z) : list Z :=
  map (fun n => b + Z.of_nat n) (seq 0 (Z.to_nat (e - b))).

Definition Zrange2 (b e : Z * Z) : list (Z * Z) :=
  flat_map (fun i => map (pair i) (Zrange (snd b) (snd e)))
           (Zrange (fst b) (fst e)).

(** ** Machine integers *)

(** An [int] has 32 bits.  [to_int] is the conversion of a size to [int]:
    the number between [INT_MIN] and [INT_MAX] that differs from the size
    by a multiple of [2 ^ 32]. *)
Definition INT_MIN : Z := - 2 ^ 31.
Definition INT_MAX : Z := 2 ^ 31 - 1.

Definition to_int (n : Z) : Z := (n + 2 ^ 31) mod 2 ^ 32 - 2 ^ 31.

(** ** Kokkos views *)

Abbreviation View1 A := (list (option A)).

Record View2 (A : Type) : Type := mkView2 {
  extent0 : nat;
  extent1 : nat;
  rows : list (View1 A)
}.
Arguments mkView2 {A} _ _ _.
Arguments extent0 {A} _.
Arguments extent1 {A} _.
Arguments rows {A} _.

Definition extent_int {A} (v : View1 A) : Z := Z.of_nat (length v).

Definition in_range (i : Z) (n : nat) : bool :=
  (0 <=? i) && (i <? Z.of_nat n).

Definition cell_read {A} (c : option (option A)) : outcome A :=
  match c with
  | Some (Some x) => Ok x
  | Some None => Abort UninitializedRead
  | None => Abort OutOfBounds
  end.

Definition view1_at {A} (v : View1 A) (i : Z) : outcome A :=
  if in_range i (length v) then cell_read (v !! Z.to_nat i)
  else Abort OutOfBounds.

Definition view1_set {A} (v : View1 A) (i : Z) (x : A) : outcome (View1 A) :=
  if in_range i (length v) then Ok (<[Z.to_nat i := Some x]> v)
  else Abort OutOfBounds.

Definition view2_at {A} (v : View2 A) (i j : Z) : outcome A :=
  if in_range i (extent0 v) && in_range j (extent1 v) then
    match rows v !! Z.to_nat i with
    | Some r => cell_read (r !! Z.to_nat j)
    | None => Abort OutOfBounds
    end
  else Abort OutOfBounds.

Definition view2_set {A} (v : View2 A) (i j : Z) (x : A) : outcome (View2 A) :=
  if in_range i (extent0 v) && in_range j (extent1 v) then
    match rows v !! Z.to_nat i with
    | Some r =>
        Ok (mkView2 (extent0 v) (extent1 v)
              (<[Z.to_nat i := <[Z.to_nat j := Some x]> r]> (rows v)))
    | None => Abort OutOfBounds
    end
  else Abort OutOfBounds.

(** A default-constructed view has no cells. *)
Definition view2_empty {A} : View2 A := mkView2 0 0 [].

(** [Kokkos::View<T**>(view_alloc(WithoutInitializing, label), m, k)]:
    the extents are [size_t], a negative [int] does not denote a size
    that can be allocated. *)
Definition view2_alloc {A} (m k : Z) : outcome (View2 A) :=
  if (m <? 0) || (k <? 0) then Abort AllocationFailure
  else Ok (mkView2 (Z.to_nat m) (Z.to_nat k)
             (replicate (Z.to_nat m) (replicate (Z.to_nat k) None))).

Definition view1_alloc {A} (n : Z) : outcome (View1 A) :=
  if n <? 0 then Abort AllocationFailure
  else Ok (replicate (Z.to_nat n) None).

(** Every cell within the extents has been written. *)
Definition view2_filled {A} (v : View2 A) : Prop :=
  forall i j, in_range i (extent0 v) = true -> in_range j (extent1 v) = true ->
    exists x, view2_at v i j = Ok x.

(** A two-dimensional view is well formed when its rows agree with its
    extents. *)
Definition view2_wf {A} (v : View2 A) : Prop :=
  length (rows v) = extent0 v /\
  Forall (fun r => length r = extent1 v) (rows v).

(** ** Execution spaces *)

(** An execution space decides in which order the iterations of a
    [parallel_for] over a [RangePolicy] or an [MDRangePolicy] of rank 2 are
    run. *)
Record ExecutionSpace : Type := mkSpace {
  range_order : Z -> Z -> list Z;
  md_range_order : Z * Z -> Z * Z -> list (Z * Z)
}.

Definition valid_space (space : ExecutionSpace) : Prop :=
  (forall b e, range_order space b e ≡ₚ Zrange b e) /\
  (forall b e, md_range_order space b e ≡ₚ Zrange2 b e).

Definition Serial : ExecutionSpace :=
  {| range_order := Zrange; md_range_order := Zrange2 |}.

Definition parallel_for {S} (space : ExecutionSpace) (b e : Z)
  (body : Z -> Exec S unit) : Exec S unit :=
  for_each (range_order space b e) body.

Definition parallel_for_md {S} (space : ExecutionSpace) (b e : Z * Z)
  (body : Z -> Z -> Exec S unit) : Exec S unit :=
  for_each (md_range_order space b e) (fun ij => body (fst ij) (snd ij)).

(** ** The operator *)

Section MovingLeastSquares.

(** Points, and the compile-time dimension of the point type
    ([GeometryTraits::dimension_v]). *)
Variable Point : Type.
Variable dimension : nat.

(** Compactly supported radial basis functions; [Wendland n] stands for
    the type [CRBF::Wendland<n>].  [PolynomialDegree<d>] is the degree
    [d] itself. *)
Variable CRBF : Type.
Variable Wendland : nat -> CRBF.
Definition PolynomialDegree : Type := nat.

(** [Details::polynomialBasisSize<dimension, degree>()], from
    [ArborX_InterpDetailsPolynomialBasis.hpp]: its value, as the [int]
    that line 123 stores. *)
Variable polynomialBasisSize : nat -> PolynomialDegree -> Z.

(** The values: [FloatingCalculationType] for the coefficients, the
    value type of the source values, the type of a product of the two,
    and [value_t], the value type of the approximated values, with
    [value_t tmp = 0], [c * v] and [tmp += p]. *)
Variables FloatingCalculationType src_value_t product_t value_t : Type.
Variable zero : value_t.
Variable times : FloatingCalculationType -> src_value_t -> product_t.
Variable plus_assign : value_t -> product_t -> value_t.

(** *** Access traits *)

(** Source and target points are given as sequences of points;
    [AccessTraits<Points, PrimitivesTag>] has [size] and [get]. *)
Definition Points : Type := list Point.

Definition acc_size (pts : Points) : Z := Z.of_nat (length pts).

Definition acc_get (pts : Points) (i : Z) : outcome Point :=
  if in_range i (length pts) then
    match pts !! Z.to_nat i with
    | Some p => Ok p
    | None => Abort OutOfBounds
    end
  else Abort OutOfBounds.

(** [nearest(p, k)]: the predicate asking for the [k] nearest
    neighbours of [p]. *)
Record Nearest : Type := nearest {
  nearest_geometry : Point;
  nearest_k : Z
}.

Record MLSTargetPointsPredicateWrapper : Type := mkWrapper {
  target_points : Points;
  num_neighbors : Z
}.

(** [AccessTraits<MLSTargetPointsPredicateWrapper<Points>, PredicatesTag>] *)
Definition predicates_size (tp : MLSTargetPointsPredicateWrapper) : Z :=
  acc_size (target_points tp).

Definition predicates_get (tp : MLSTargetPointsPredicateWrapper) (i : Z)
  : outcome Nearest :=
  match acc_get (target_points tp) i with
  | Ok p => Ok (nearest p (num_neighbors tp))
  | Abort e => Abort e
  end.

(** *** Collaborators *)

(** [ArborX::Experimental::attach_indices]: every point with its
    position in the sequence. *)
Definition PairValueIndex : Type := (Point * Z)%type.

Definition attach_indices (pts : Points) : list PairValueIndex :=
  imap (fun i p => (p, Z.of_nat i)) pts.

(** The bounding volume hierarchy: its constructor, and its [query]
    with the legacy callback, which returns the views [indices] and
    [offsets]. *)
Variable BoundingVolumeHierarchy : Type.
Variable BVH_build :
  ExecutionSpace -> list PairValueIndex -> BoundingVolumeHierarchy.
Variable BVH_query :
  ExecutionSpace -> BoundingVolumeHierarchy ->
  MLSTargetPointsPredicateWrapper -> View1 Z * View1 Z.

(** [Details::movingLeastSquaresCoefficients], from
    [ArborX_InterpDetailsMovingLeastSquaresCoefficients.hpp]. *)
Variable movingLeastSquaresCoefficients :
  CRBF -> PolynomialDegree -> ExecutionSpace -> View2 Point -> Points ->
  outcome (View2 FloatingCalculationType).

(** Modelled from the spec: the solver is not part of the sources.  The
    coefficient table it returns is dense and has the extents of the
    table of neighbour coordinates it was given: one row per target, one
    weight per neighbour. *)
Hypothesis coefficients_table :
  forall crbf degree space source_view target_points coeffs,
    movingLeastSquaresCoefficients crbf degree space source_view
      target_points = Ok coeffs ->
    extent0 coeffs = extent0 source_view /\
    extent1 coeffs = extent1 source_view /\
    view2_filled coeffs.

(** Modelled from the spec: [KokkosExt::reallocWithoutInitializing] is
    not part of the sources.  The output array is reallocated to the
    requested length; no cell of the new array has been written. *)
Definition reallocWithoutInitializing {T} (space : ExecutionSpace)
  (v : View1 T) (n : Z) : outcome (View1 T) :=
  view1_alloc n.

(** *** The class *)

Record MovingLeastSquares : Type := mkMLS {
  _coeffs : View2 FloatingCalculationType;
  _values_indices : View2 Z;
  _source_size : Z
}.

Definition set_coeffs (c : View2 FloatingCalculationType)
  (self : MovingLeastSquares) : MovingLeastSquares :=
  mkMLS c (_values_indices self) (_source_size self).

Definition set_values_indices (vi : View2 Z)
  (self : MovingLeastSquares) : MovingLeastSquares :=
  mkMLS (_coeffs self) vi (_source_size self).

Definition set_source_size (n : Z)
  (self : MovingLeastSquares) : MovingLeastSquares :=
  mkMLS (_coeffs self) (_values_indices self) n.

(** The object on entry of the constructor's body: both views are
    default-constructed, the [int] member holds whatever was there. *)
Definition fresh_object (garbage : Z) : MovingLeastSquares :=
  mkMLS view2_empty view2_empty garbage.

(** *** [fillValuesIndicesAndGetSourceView] *)

Definition fill_body (indices offsets : View1 Z) (source_points : Points)
  (i j : Z) : Exec (MovingLeastSquares * View2 Point) unit :=
  o <- lift (view1_at offsets i) ;;
  index <- lift (view1_at indices (o + j)) ;;
  vi <- gets (fun s => _values_indices (fst s)) ;;
  vi' <- lift (view2_set vi i j index) ;;
  modify (fun s => (set_values_indices vi' (fst s), snd s)) ;;
  p <- lift (acc_get source_points index) ;;
  sv <- gets snd ;;
  sv' <- lift (view2_set sv i j p) ;;
  modify (fun s => (fst s, sv')).

Definition fillValuesIndicesAndGetSourceView (space : ExecutionSpace)
  (indices offsets : View1 Z) (num_targets num_neighbors : Z)
  (source_points : Points) : Exec MovingLeastSquares (View2 Point) :=
  vi <- lift (view2_alloc num_targets num_neighbors) ;;
  modify (set_values_indices vi) ;;
  source_view <- lift (view2_alloc num_targets num_neighbors) ;;
  r <- with_local source_view
         (parallel_for_md space (0, 0) (num_targets, num_neighbors)
            (fill_body indices offsets source_points)) ;;
  ret (snd r).

(** *** The constructor *)

Definition default_CRBF : CRBF := Wendland 0.
Definition default_PolynomialDegree : PolynomialDegree := 2%nat.

Definition num_neighbors_val (degree : PolynomialDegree)
  (num_neighbors : option Z) : Z :=
  match num_neighbors with
  | Some k => k
  | None => polynomialBasisSize dimension degree
  end.

(** The constructor with every argument given. *)
Definition MovingLeastSquares_init (space : ExecutionSpace)
  (source_points target_points : Points) (crbf : CRBF)
  (degree : PolynomialDegree) (num_neighbors : option Z)
  : Exec MovingLeastSquares unit :=
  let num_neighbors_val := num_neighbors_val degree num_neighbors in
  let num_targets := to_int (acc_size target_points) in
  modify (set_source_size (to_int (acc_size source_points))) ;;
  source_size <- gets _source_size ;;
  KOKKOS_ASSERT ConfigurationError
    ((0 <? num_neighbors_val) && (num_neighbors_val <=? source_size)) ;;
  emit EvBuildTree ;;
  let source_tree := BVH_build space (attach_indices source_points) in
  let predicates := mkWrapper target_points num_neighbors_val in
  emit EvQuery ;;
  let '(indices, offsets) := BVH_query space source_tree predicates in
  source_view <- fillValuesIndicesAndGetSourceView space indices offsets
                   num_targets num_neighbors_val source_points ;;
  emit EvSolve ;;
  coeffs <- lift (movingLeastSquaresCoefficients crbf degree space
                    source_view target_points) ;;
  modify (set_coeffs coeffs).

(** The constructor as it is declared: the kernel, the degree and the
    number of neighbours may be left out ([None]). *)
Definition MovingLeastSquares_ctor (space : ExecutionSpace)
  (source_points target_points : Points) (crbf : option CRBF)
  (degree : option PolynomialDegree) (num_neighbors : option Z)
  : Exec MovingLeastSquares unit :=
  MovingLeastSquares_init space source_points target_points
    (default default_CRBF crbf)
    (default default_PolynomialDegree degree)
    num_neighbors.

(** [op] is an operator that some call of the constructor has produced,
    from source points whose number fits the [int] in which the operator
    records it. *)
Definition constructed (op : MovingLeastSquares) : Prop :=
  exists space source_points target_points crbf degree num_neighbors
         garbage tr,
    valid_space space /\
    acc_size source_points <= INT_MAX /\
    MovingLeastSquares_ctor space source_points target_points crbf degree
      num_neighbors (fresh_object garbage) [] = (Ok tt, op, tr).

(** *** [interpolate] *)

(** What [interpolate] can reach: the operator itself and the caller's
    output view, passed by reference. *)
Record Frame : Type := mkFrame {
  this : MovingLeastSquares;
  approx_values : View1 value_t
}.

Definition set_approx_values (a : View1 value_t) (fr : Frame) : Frame :=
  mkFrame (this fr) a.

Definition interpolate_term (source_values : View1 src_value_t)
  (i j : Z) (tmp : value_t) : Exec Frame value_t :=
  c <- (self <- gets this ;; lift (view2_at (_coeffs self) i j)) ;;
  index <- (self <- gets this ;; lift (view2_at (_values_indices self) i j)) ;;
  v <- lift (view1_at source_values index) ;;
  ret (plus_assign tmp (times c v)).

Definition interpolate_body (source_values : View1 src_value_t)
  (num_neighbors : Z) (i : Z) : Exec Frame unit :=
  tmp <- for_fold (Zrange 0 num_neighbors)
           (interpolate_term source_values i) zero ;;
  a <- gets approx_values ;;
  a' <- lift (view1_set a i tmp) ;;
  emit (EvWriteApprox i) ;;
  modify (set_approx_values a').

Definition interpolate (space : ExecutionSpace)
  (source_values : View1 src_value_t) : Exec Frame unit :=
  source_size <- gets (fun fr => _source_size (this fr)) ;;
  KOKKOS_ASSERT ContractViolation
    (source_size =? extent_int source_values) ;;
  num_targets <-
    gets (fun fr => Z.of_nat (extent0 (_values_indices (this fr)))) ;;
  num_neighbors <-
    gets (fun fr => Z.of_nat (extent1 (_values_indices (this fr)))) ;;
  old <- gets approx_values ;;
  a <- lift (reallocWithoutInitializing space old num_targets) ;;
  emit (EvRealloc num_targets) ;;
  modify (set_approx_values a) ;;
  parallel_for space 0 num_targets
    (interpolate_body source_values num_neighbors).

(** *** Predicates and functions for the properties *)

(** The query that the constructor issues. *)
Definition ctor_query (space : ExecutionSpace)
  (source_points target_points : Points) (k : Z) : View1 Z * View1 Z :=
  BVH_query space (BVH_build space (attach_indices source_points))
    (mkWrapper target_points k).

(** The cell [(i, j)] of both tables holds what the loop body puts there. *)
Definition cell_done (indices offsets : View1 Z) (source_points : Points)
  (i j : Z) (s : MovingLeastSquares * View2 Point) : Prop :=
  exists o index p,
    view1_at offsets i = Ok o /\
    view1_at indices (o + j) = Ok index /\
    acc_get source_points index = Ok p /\
    view2_at (_values_indices (fst s)) i j = Ok index /\
    view2_at (snd s) i j = Ok p.

(** What every iteration keeps: both tables are well formed [m] by [k]
    tables, and the other members are not touched. *)
Definition fill_inv (m k : nat) (self0 : MovingLeastSquares)
  (s : MovingLeastSquares * View2 Point) : Prop :=
  view2_wf (_values_indices (fst s)) /\ view2_wf (snd s) /\
  extent0 (_values_indices (fst s)) = m /\
  extent1 (_values_indices (fst s)) = k /\
  extent0 (snd s) = m /\ extent1 (snd s) = k /\
  _coeffs (fst s) = _coeffs self0 /\
  _source_size (fst s) = _source_size self0.

(** The state of an operator that interpolation relies on: the two tables
    have the same extents, every cell of both holds a value, and there are
    at least one and at most [_source_size] neighbours per target. *)
Definition operator_wf (op : MovingLeastSquares) : Prop :=
  extent0 (_coeffs op) = extent0 (_values_indices op) /\
  extent1 (_coeffs op) = extent1 (_values_indices op) /\
  view2_filled (_coeffs op) /\
  view2_filled (_values_indices op) /\
  0 < Z.of_nat (extent1 (_values_indices op)) <= _source_size op.

(** Every stored index points into the source. *)
Definition indices_in_range (op : MovingLeastSquares) : Prop :=
  forall t j index,
    view2_at (_values_indices op) t j = Ok index ->
    0 <= index < _source_size op.

(** The value of [tmp] after the step [j] of the inner loop. *)
Definition term_value (self : MovingLeastSquares)
  (source_values : View1 src_value_t) (i j : Z) (tmp : value_t)
  : outcome value_t :=
  match view2_at (_coeffs self) i j with
  | Ok c =>
      match view2_at (_values_indices self) i j with
      | Ok index =>
          match view1_at source_values index with
          | Ok v => Ok (plus_assign tmp (times c v))
          | Abort e => Abort e
          end
      | Abort e => Abort e
      end
  | Abort e => Abort e
  end.

(** The value of [tmp] after the steps [js] of the inner loop. *)
Fixpoint row_value (self : MovingLeastSquares)
  (source_values : View1 src_value_t) (i : Z) (js : list Z) (tmp : value_t)
  : outcome value_t :=
  match js with
  | [] => Ok tmp
  | j :: js' =>
      match term_value self source_values i j tmp with
      | Ok tmp' => row_value self source_values i js' tmp'
      | Abort e => Abort e
      end
  end.

(** The sum [f 0 + f 1 + ... + f (k-1)], added from the left to a [tmp]
    that starts at zero. *)
Definition mls_sum (k : Z) (f : Z -> product_t) : value_t :=
  fold_left (fun tmp j => plus_assign tmp (f j)) (Zrange 0 k) zero.

(** The loop over the targets [l] as a function of the operator, the
    source values and the output array: how it ends, the output array at
    that point, and the targets written, in the order of the writes. *)
Fixpoint approx_loop (self : MovingLeastSquares)
  (source_values : View1 src_value_t) (num_neighbors : Z) (l : list Z)
  (a : View1 value_t) : outcome unit * View1 value_t * list Z :=
  match l with
  | [] => (Ok tt, a, [])
  | i :: l' =>
      match row_value self source_values i (Zrange 0 num_neighbors) zero with
      | Ok tmp =>
          match view1_set a i tmp with
          | Ok a' =>
              let '(r, a'', w) :=
                approx_loop self source_values num_neighbors l' a' in
              (r, a'', i :: w)
          | Abort e => (Abort e, a, [])
          end
      | Abort e => (Abort e, a, [])
      end
  end.

(** ** Conversion to [int] *)

Lemma to_int_range (n : Z) : INT_MIN <= to_int n <= INT_MAX.
Proof.
  unfold to_int, INT_MIN, INT_MAX.
  pose proof (Z.mod_pos_bound (n + 2 ^ 31) (2 ^ 32)). lia.
Qed.

Lemma to_int_fits (n : Z) : INT_MIN <= n <= INT_MAX -> to_int n = n.
Proof.
  unfold to_int, INT_MIN, INT_MAX. intros Hn.
  rewrite Z.mod_small; lia.
Qed.

(** A size that does not fit is stored as a smaller number. *)
Lemma to_int_le (n : Z) : 0 <= n -> to_int n <= n.
Proof.
  unfold to_int. intros Hn.
  pose proof (Z.mod_le (n + 2 ^ 31) (2 ^ 32)). lia.
Qed.

(** A size from [2 ^ 31] to [2 ^ 32 - 1] is stored as a negative
    number. *)
Lemma to_int_wraps (n : Z) :
  INT_MAX < n < 2 ^ 32 -> to_int n = n - 2 ^ 32.
Proof.
  unfold to_int, INT_MAX. intros Hn.
  replace (n + 2 ^ 31) with (n - 2 ^ 31 + 1 * 2 ^ 32) by lia.
  rewrite Z.mod_add by lia. rewrite Z.mod_small; lia.
Qed.

(** ** Views: reading after writing *)

Lemma in_range_spec (i : Z) (n : nat) :
  in_range i n = true <-> 0 <= i < Z.of_nat n.
Proof. unfold in_range. rewrite andb_true_iff. lia. Qed.

Lemma in_range_false (i : Z) (n : nat) :
  in_range i n = false <-> ~ (0 <= i < Z.of_nat n).
Proof.
  rewrite <- in_range_spec. destruct (in_range i n); split; congruence.
Qed.

Lemma Z_to_nat_inj_range (i i' : Z) (n : nat) :
  in_range i n = true -> in_range i' n = true ->
  Z.to_nat i = Z.to_nat i' -> i = i'.
Proof. rewrite !in_range_spec. lia. Qed.

Lemma view1_set_inv {A} (v v' : View1 A) (i : Z) (x : A) :
  view1_set v i x = Ok v' ->
  in_range i (length v) = true /\ v' = <[Z.to_nat i := Some x]> v.
Proof.
  unfold view1_set. destruct (in_range i (length v)); [|discriminate].
  intros [= <-]. auto.
Qed.

Lemma view1_set_length {A} (v v' : View1 A) (i : Z) (x : A) :
  view1_set v i x = Ok v' -> length v' = length v.
Proof. intros [_ ->]%view1_set_inv. apply length_insert. Qed.

Lemma view1_at_set_eq {A} (v v' : View1 A) (i : Z) (x : A) :
  view1_set v i x = Ok v' -> view1_at v' i = Ok x.
Proof.
  intros [Hi ->]%view1_set_inv. unfold view1_at.
  rewrite length_insert, Hi, list_lookup_insert_eq; [done|].
  apply in_range_spec in Hi. lia.
Qed.

Lemma view1_at_set_ne {A} (v v' : View1 A) (i i' : Z) (x : A) :
  view1_set v i x = Ok v' -> i <> i' -> view1_at v' i' = view1_at v i'.
Proof.
  intros [Hi ->]%view1_set_inv Hne. unfold view1_at.
  rewrite length_insert.
  destruct (in_range i' (length v)) eqn:Hi'; [|done].
  rewrite list_lookup_insert_ne; [done|].
  intros Heq. apply Hne. eauto using Z_to_nat_inj_range.
Qed.

Lemma view2_alloc_inv {A} (m k : Z) (v : View2 A) :
  view2_alloc m k = Ok v ->
  0 <= m /\ 0 <= k /\ extent0 v = Z.to_nat m /\ extent1 v = Z.to_nat k /\
  view2_wf v.
Proof.
  unfold view2_alloc.
  destruct (m <? 0) eqn:Hm; [discriminate|].
  destruct (k <? 0) eqn:Hk; [discriminate|].
  simpl. intros [= <-]. unfold view2_wf. simpl.
  rewrite length_replicate.
  repeat split; try lia.
  apply Forall_replicate. apply length_replicate.
Qed.

Lemma view2_alloc_ok {A} (m k : Z) :
  0 <= m -> 0 <= k -> exists v : View2 A, view2_alloc m k = Ok v.
Proof.
  intros Hm Hk. unfold view2_alloc.
  destruct (Z.ltb_spec m 0); [lia|]. destruct (Z.ltb_spec k 0); [lia|].
  simpl. eauto.
Qed.

Lemma view2_set_inv {A} (v v' : View2 A) (i j : Z) (x : A) :
  view2_set v i j x = Ok v' ->
  in_range i (extent0 v) = true /\ in_range j (extent1 v) = true /\
  exists r, rows v !! Z.to_nat i = Some r /\
    v' = mkView2 (extent0 v) (extent1 v)
           (<[Z.to_nat i := <[Z.to_nat j := Some x]> r]> (rows v)).
Proof.
  unfold view2_set.
  destruct (in_range i (extent0 v)); [|discriminate].
  destruct (in_range j (extent1 v)); [|discriminate].
  simpl. destruct (rows v !! Z.to_nat i) as [r|]; [|discriminate].
  intros [= <-]. eauto.
Qed.

Lemma view2_set_ok {A} (v : View2 A) (i j : Z) (x : A) :
  view2_wf v ->
  in_range i (extent0 v) = true -> in_range j (extent1 v) = true ->
  exists v', view2_set v i j x = Ok v'.
Proof.
  intros [Hlen _] Hi Hj. unfold view2_set. rewrite Hi, Hj. simpl.
  destruct (rows v !! Z.to_nat i) as [r|] eqn:Hr; [eauto|].
  apply lookup_ge_None in Hr. apply in_range_spec in Hi. lia.
Qed.

Lemma view2_set_extents {A} (v v' : View2 A) (i j : Z) (x : A) :
  view2_set v i j x = Ok v' ->
  extent0 v' = extent0 v /\ extent1 v' = extent1 v.
Proof. intros (_ & _ & r & _ & ->)%view2_set_inv. auto. Qed.

Lemma view2_set_wf {A} (v v' : View2 A) (i j : Z) (x : A) :
  view2_wf v -> view2_set v i j x = Ok v' -> view2_wf v'.
Proof.
  intros [Hlen Hrows] (_ & _ & r & Hr & ->)%view2_set_inv.
  unfold view2_wf. cbn [rows extent0 extent1].
  rewrite length_insert. split; [done|].
  apply Forall_insert; [done|]. rewrite length_insert.
  rewrite Forall_lookup in Hrows. eauto.
Qed.

Lemma view2_at_set_eq {A} (v v' : View2 A) (i j : Z) (x : A) :
  view2_wf v -> view2_set v i j x = Ok v' -> view2_at v' i j = Ok x.
Proof.
  intros [Hlen Hrows] (Hi & Hj & r & Hr & ->)%view2_set_inv.
  unfold view2_at. simpl. rewrite Hi, Hj. simpl.
  rewrite list_lookup_insert_eq by (by eapply lookup_lt_Some).
  rewrite list_lookup_insert_eq; [done|].
  rewrite Forall_lookup in Hrows. rewrite (Hrows _ _ Hr).
  apply in_range_spec in Hj. lia.
Qed.

Lemma view2_at_set_ne {A} (v v' : View2 A) (i j i' j' : Z) (x : A) :
  view2_set v i j x = Ok v' -> (i, j) <> (i', j') ->
  view2_at v' i' j' = view2_at v i' j'.
Proof.
  intros (Hi & Hj & r & Hr & ->)%view2_set_inv Hne.
  unfold view2_at. simpl.
  destruct (in_range i' (extent0 v)) eqn:Hi'; [|done].
  destruct (in_range j' (extent1 v)) eqn:Hj'; [|done]. simpl.
  destruct (decide (Z.to_nat i = Z.to_nat i')) as [Heq|Hni].
  - assert (i = i') as <- by eauto using Z_to_nat_inj_range.
    rewrite list_lookup_insert_eq by (by eapply lookup_lt_Some).
    rewrite Hr. rewrite list_lookup_insert_ne; [done|].
    intros Hjj. apply Hne. f_equal. eauto using Z_to_nat_inj_range.
  - by rewrite list_lookup_insert_ne.
Qed.

Lemma view2_at_in_range {A} (v : View2 A) (i j : Z) (x : A) :
  view2_at v i j = Ok x ->
  0 <= i < Z.of_nat (extent0 v) /\ 0 <= j < Z.of_nat (extent1 v).
Proof.
  unfold view2_at.
  destruct (in_range i (extent0 v)) eqn:Hi; [|discriminate].
  destruct (in_range j (extent1 v)) eqn:Hj; [|discriminate].
  intros _. split; by apply in_range_spec.
Qed.

(** ** Running the monad *)

(** Splits a run that ended well into the runs of its steps. *)
Ltac exec_inv H :=
  unfold bind, lift, gets, modify, ret, abort, emit, KOKKOS_ASSERT in H;
  cbn beta iota in H;
  repeat match type of H with
    | context [match ?o with Ok _ => _ | Abort _ => _ end] =>
        let E := fresh "E" in
        destruct o eqn:E; cbn beta iota in H; try discriminate H
    end.

Lemma bind_Ok_inv {S X Y} (m : Exec S X) (k : X -> Exec S Y) s tr y s' tr' :
  bind m k s tr = (Ok y, s', tr') ->
  exists x s1 tr1, m s tr = (Ok x, s1, tr1) /\ k x s1 tr1 = (Ok y, s', tr').
Proof.
  unfold bind. destruct (m s tr) as [[[x|e] s1] tr1]; [eauto|discriminate].
Qed.

Lemma bind_Ok {S X Y} (m : Exec S X) (k : X -> Exec S Y) s tr x s1 tr1 :
  m s tr = (Ok x, s1, tr1) -> bind m k s tr = k x s1 tr1.
Proof. unfold bind. by intros ->. Qed.

(** ** The fill loop *)

Lemma fill_body_inv indices offsets source_points m k self0 i j s tr s' tr' :
  fill_inv m k self0 s ->
  fill_body indices offsets source_points i j s tr = (Ok tt, s', tr') ->
  fill_inv m k self0 s' /\ tr' = tr /\
  cell_done indices offsets source_points i j s' /\
  (forall i' j', cell_done indices offsets source_points i' j' s ->
                 cell_done indices offsets source_points i' j' s').
Proof.
  intros (Hwf1 & Hwf2 & He0 & He1 & Hs0 & Hs1 & Hc & Hn) H.
  unfold fill_body in H. exec_inv H.
  rename x into o, x0 into index, x1 into vi', x2 into p, x3 into sv'.
  injection H as <- <-. cbn [fst snd] in *.
  destruct (view2_set_extents _ _ _ _ _ E1) as [? ?].
  destruct (view2_set_extents _ _ _ _ _ E3) as [? ?].
  assert (Hdone : cell_done indices offsets source_points i j
                    (set_values_indices vi' s.1, sv')).
  { exists o, index, p. cbn [fst snd set_values_indices _values_indices].
    eauto 10 using view2_at_set_eq. }
  split; [|split; [done|split; [done|]]].
  - unfold fill_inv. cbn [fst snd set_values_indices _values_indices
      _coeffs _source_size].
    split_and!; [by eapply view2_set_wf..|congruence|congruence|
      congruence|congruence|done|done].
  - intros i' j' (o' & index' & p' & Ho & Hix & Hp & Hvi & Hsv).
    destruct (decide ((i, j) = (i', j'))) as [[= <- <-]|Hne]; [done|].
    exists o', index', p'.
    cbn [fst snd set_values_indices _values_indices].
    rewrite (view2_at_set_ne _ _ _ _ _ _ _ E1 Hne).
    rewrite (view2_at_set_ne _ _ _ _ _ _ _ E3 Hne). done.
Qed.

Lemma fill_loop_inv indices offsets source_points m k self0 l :
  forall s tr s' tr',
  fill_inv m k self0 s ->
  for_each l (fun ij => fill_body indices offsets source_points ij.1 ij.2)
    s tr = (Ok tt, s', tr') ->
  fill_inv m k self0 s' /\ tr' = tr /\
  (forall i j, (i, j) ∈ l ->
     cell_done indices offsets source_points i j s') /\
  (forall i j, cell_done indices offsets source_points i j s ->
               cell_done indices offsets source_points i j s').
Proof.
  induction l as [|[i j] l IH]; intros s tr s' tr' Hinv H; simpl in H.
  - injection H as <- <-. split_and!; [done|done| |done].
    intros i j Hin. by apply elem_of_nil in Hin.
  - apply bind_Ok_inv in H as ([] & s1 & tr1 & Hbody & Hrest).
    cbn [fst snd] in Hbody.
    destruct (fill_body_inv _ _ _ _ _ _ _ _ _ _ _ _ Hinv Hbody)
      as (Hinv1 & -> & Hdone & Hkeep).
    destruct (IH _ _ _ _ Hinv1 Hrest) as (Hinv' & -> & Hall & Hkeep').
    split_and!; [done|done| |by eauto].
    intros i' j' [[= -> ->]|Hin]%elem_of_cons; eauto.
Qed.

Lemma fill_body_ok indices offsets source_points m k self0 i j s tr :
  fill_inv m k self0 s ->
  in_range i m = true -> in_range j k = true ->
  (exists o index p,
     view1_at offsets i = Ok o /\ view1_at indices (o + j) = Ok index /\
     acc_get source_points index = Ok p) ->
  exists s', fill_body indices offsets source_points i j s tr = (Ok tt, s', tr).
Proof.
  intros (Hwf1 & Hwf2 & He0 & He1 & Hs0 & Hs1 & Hc & Hn) Hi Hj
    (o & index & p & Ho & Hix & Hp).
  destruct (view2_set_ok (_values_indices s.1) i j index) as [vi' Hvi];
    [done|congruence..|].
  destruct (view2_set_ok s.2 i j p) as [sv' Hsv]; [done|congruence..|].
  unfold fill_body, bind, lift, gets, modify, ret.
  rewrite Ho, Hix, Hvi, Hp. cbn [fst snd]. rewrite Hsv. eauto.
Qed.

Lemma fill_loop_ok indices offsets source_points m k self0 l :
  forall s tr,
  fill_inv m k self0 s ->
  (forall i j, (i, j) ∈ l ->
     in_range i m = true /\ in_range j k = true /\
     exists o index p,
       view1_at offsets i = Ok o /\ view1_at indices (o + j) = Ok index /\
       acc_get source_points index = Ok p) ->
  exists s',
    for_each l (fun ij => fill_body indices offsets source_points ij.1 ij.2)
      s tr = (Ok tt, s', tr).
Proof.
  induction l as [|[i j] l IH]; intros s tr Hinv Hl; simpl.
  - by eexists.
  - destruct (Hl i j) as (Hi & Hj & Hreads); [by left|].
    destruct (fill_body_ok _ _ _ _ _ _ _ _ _ tr Hinv Hi Hj Hreads)
      as [s1 Hbody].
    erewrite bind_Ok by exact Hbody.
    apply (fill_body_inv _ _ _ _ _ _ _ _ _ _ _ _ Hinv) in Hbody
      as (Hinv1 & _).
    apply IH; [done|]. intros i' j' Hin. apply Hl. by right.
Qed.

(** ** Index ranges *)

Lemma elem_of_Zrange (b e i : Z) : i ∈ Zrange b e <-> b <= i < e.
Proof.
  unfold Zrange. rewrite list_elem_of_In, in_map_iff. split.
  - intros (n & <- & Hn%in_seq). lia.
  - intros Hi. exists (Z.to_nat (i - b)). rewrite in_seq. lia.
Qed.

Lemma elem_of_Zrange2 (b e : Z * Z) (i j : Z) :
  (i, j) ∈ Zrange2 b e <-> (b.1 <= i < e.1) /\ (b.2 <= j < e.2).
Proof.
  unfold Zrange2. rewrite list_elem_of_In, in_flat_map. split.
  - intros (i' & Hi%list_elem_of_In%elem_of_Zrange & Hj).
    apply in_map_iff in Hj
      as (j' & [= -> ->] & Hj%list_elem_of_In%elem_of_Zrange).
    done.
  - intros [Hi Hj]. exists i. split.
    + by apply list_elem_of_In, elem_of_Zrange.
    + apply in_map_iff. exists j. split; [done|].
      by apply list_elem_of_In, elem_of_Zrange.
Qed.

Lemma range_order_elem (space : ExecutionSpace) (b e i : Z) :
  valid_space space -> i ∈ range_order space b e <-> b <= i < e.
Proof. intros [H _]. rewrite (H b e). apply elem_of_Zrange. Qed.

Lemma md_range_order_elem (space : ExecutionSpace) (b e : Z * Z) (i j : Z) :
  valid_space space ->
  (i, j) ∈ md_range_order space b e <-> (b.1 <= i < e.1) /\ (b.2 <= j < e.2).
Proof. intros [_ H]. rewrite (H b e). apply elem_of_Zrange2. Qed.

Lemma Serial_valid : valid_space Serial.
Proof. split; intros b e; reflexivity. Qed.

(** ** [fillValuesIndicesAndGetSourceView] *)

Lemma with_local_Ok_inv {S L X} (init : L) (m : Exec (S * L) X) s tr r s' tr' :
  with_local init m s tr = (Ok r, s', tr') ->
  m (s, init) tr = (Ok r.1, (s', r.2), tr').
Proof.
  unfold with_local.
  destruct (m (s, init) tr) as [[[x|e] [s1 l]] tr1]; [|discriminate].
  by intros [= <- <- <-].
Qed.

Lemma fill_start_inv (m k : Z) (vi : View2 Z) (sv : View2 Point) self :
  view2_alloc m k = Ok vi -> view2_alloc m k = Ok sv ->
  fill_inv (Z.to_nat m) (Z.to_nat k) self (set_values_indices vi self, sv).
Proof.
  intros (_ & _ & ? & ? & ?)%view2_alloc_inv
         (_ & _ & ? & ? & ?)%view2_alloc_inv.
  unfold fill_inv. cbn [fst snd set_values_indices _values_indices
    _coeffs _source_size]. done.
Qed.

(** Whenever the function returns, both tables hold the reshaped query
    result, and nothing else of the object has changed. *)
Lemma fill_returns space indices offsets num_targets num_neighbors
  source_points self tr source_view self' tr' :
  valid_space space ->
  fillValuesIndicesAndGetSourceView space indices offsets num_targets
    num_neighbors source_points self tr = (Ok source_view, self', tr') ->
  tr' = tr /\ 0 <= num_targets /\ 0 <= num_neighbors /\
  fill_inv (Z.to_nat num_targets) (Z.to_nat num_neighbors) self
    (self', source_view) /\
  forall i j, 0 <= i < num_targets -> 0 <= j < num_neighbors ->
    cell_done indices offsets source_points i j (self', source_view).
Proof.
  intros Hsp H. unfold fillValuesIndicesAndGetSourceView in H.
  apply bind_Ok_inv in H as (vi & s1 & tr1 & Hvi & H).
  apply bind_Ok_inv in H as ([] & s2 & tr2 & Hmod & H).
  apply bind_Ok_inv in H as (sv & s3 & tr3 & Hsv & H).
  apply bind_Ok_inv in H as (r & s4 & tr4 & Hloop & H).
  exec_inv Hvi. exec_inv Hsv. exec_inv Hmod. exec_inv H.
  injection Hvi as <- <- <-. injection Hmod as <- <-.
  injection Hsv as <- <- <-. injection H as <- <- <-.
  apply with_local_Ok_inv in Hloop. unfold parallel_for_md in Hloop.
  destruct r as [[] sv']. cbn [fst snd] in *.
  pose proof (fill_start_inv _ _ _ _ self E E0) as Hinv.
  apply (fill_loop_inv _ _ _ _ _ _ _ _ _ _ _ Hinv) in Hloop
    as (Hinv' & -> & Hall & _).
  destruct (view2_alloc_inv _ _ _ E) as (? & ? & _).
  split_and!; [done..|].
  intros i j Hi Hj. apply Hall. by apply md_range_order_elem.
Qed.

Lemma fill_succeeds space indices offsets num_targets num_neighbors
  source_points self tr :
  valid_space space -> 0 <= num_targets -> 0 <= num_neighbors ->
  (forall i j, 0 <= i < num_targets -> 0 <= j < num_neighbors ->
     exists o index p,
       view1_at offsets i = Ok o /\ view1_at indices (o + j) = Ok index /\
       acc_get source_points index = Ok p) ->
  exists source_view self',
    fillValuesIndicesAndGetSourceView space indices offsets num_targets
      num_neighbors source_points self tr = (Ok source_view, self', tr).
Proof.
  intros Hsp Hm Hk Hreads.
  destruct (view2_alloc_ok (A:=Z) _ _ Hm Hk) as [vi Hvi].
  destruct (view2_alloc_ok (A:=Point) _ _ Hm Hk) as [sv Hsv].
  pose proof (fill_start_inv _ _ _ _ self Hvi Hsv) as Hinv.
  destruct (fill_loop_ok indices offsets source_points _ _ _
              (md_range_order space (0, 0) (num_targets, num_neighbors))
              _ tr Hinv) as [[self' sv'] Hloop].
  { intros i j [Hi Hj]%md_range_order_elem; [|done]. cbn [fst snd] in *.
    rewrite !in_range_spec. split_and!; [lia..|]. by apply Hreads. }
  exists sv', self'.
  unfold fillValuesIndicesAndGetSourceView, bind, lift, modify, ret,
    with_local, parallel_for_md.
  rewrite Hvi, Hsv, Hloop. done.
Qed.

(** ** The constructor *)

Lemma init_returns space source_points target_points crbf degree
  num_neighbors self tr op tr' :
  valid_space space ->
  MovingLeastSquares_init space source_points target_points crbf degree
    num_neighbors self tr = (Ok tt, op, tr') ->
  let k := num_neighbors_val degree num_neighbors in
  let q := ctor_query space source_points target_points k in
  let num_targets := to_int (acc_size target_points) in
  0 < k <= to_int (acc_size source_points) /\
  _source_size op = to_int (acc_size source_points) /\
  tr' = tr ++ [EvBuildTree; EvQuery; EvSolve] /\
  exists source_view,
    movingLeastSquaresCoefficients crbf degree space source_view
      target_points = Ok (_coeffs op) /\
    view2_wf (_values_indices op) /\
    Z.of_nat (extent0 (_values_indices op)) = num_targets /\
    extent1 (_values_indices op) = Z.to_nat k /\
    Z.of_nat (extent0 source_view) = num_targets /\
    extent1 source_view = Z.to_nat k /\
    forall i j, 0 <= i < num_targets -> 0 <= j < k ->
      cell_done q.1 q.2 source_points i j (op, source_view).
Proof.
  intros Hsp H k q num_targets. unfold MovingLeastSquares_init in H.
  fold k num_targets in H. unfold ctor_query in q.
  apply bind_Ok_inv in H as ([] & s1 & tr1 & H1 & H).
  apply bind_Ok_inv in H as (n & s2 & tr2 & H2 & H).
  apply bind_Ok_inv in H as ([] & s3 & tr3 & H3 & H).
  apply bind_Ok_inv in H as ([] & s4 & tr4 & H4 & H).
  apply bind_Ok_inv in H as ([] & s5 & tr5 & H5 & H).
  fold q in H. destruct q as [indices offsets] eqn:Hq.
  apply bind_Ok_inv in H as (sv & s6 & tr6 & Hfill & H).
  apply bind_Ok_inv in H as ([] & s7 & tr7 & H7 & H).
  apply bind_Ok_inv in H as (c & s8 & tr8 & Hsolve & H).
  exec_inv H1. exec_inv H2. exec_inv H4. exec_inv H5. exec_inv H7.
  exec_inv Hsolve. exec_inv H.
  injection H1 as <- <-. injection H2 as <- <- <-. injection H4 as <- <-.
  injection H5 as <- <-. injection H7 as <- <-.
  injection Hsolve as <- <- <-. injection H as <- <-.
  unfold KOKKOS_ASSERT in H3. cbn [set_source_size _source_size] in H3.
  destruct (0 <? k) eqn:Hk0; [|discriminate].
  destruct (k <=? to_int (acc_size source_points)) eqn:HkN; [|discriminate].
  cbn in H3. injection H3 as <- <-.
  apply Z.ltb_lt in Hk0. apply Z.leb_le in HkN.
  apply fill_returns in Hfill
    as (-> & ? & _ & (Hwf1 & Hwf2 & ? & ? & ? & ? & Hc & Hn) & Hcells);
    [|done].
  cbn [fst snd set_source_size set_coeffs _coeffs _values_indices
    _source_size] in *.
  split; [lia|]. split; [done|]. split.
  { rewrite <- !app_assoc. done. }
  exists sv. split_and!; try done; lia.
Qed.

Lemma acc_get_in_range (pts : Points) (i : Z) (p : Point) :
  acc_get pts i = Ok p -> 0 <= i < acc_size pts.
Proof.
  unfold acc_get, acc_size.
  destruct (in_range i (length pts)) eqn:Hi; [|discriminate].
  intros _. by apply in_range_spec.
Qed.

Lemma acc_size_nonneg (pts : Points) : 0 <= acc_size pts.
Proof. unfold acc_size. lia. Qed.

(** The number of source points as the operator records it, when it
    fits. *)
Lemma source_size_fits (pts : Points) :
  acc_size pts <= INT_MAX -> to_int (acc_size pts) = acc_size pts.
Proof.
  intros H. apply to_int_fits. pose proof (acc_size_nonneg pts).
  unfold INT_MIN. lia.
Qed.

Lemma constructed_wf (op : MovingLeastSquares) :
  constructed op -> operator_wf op /\ indices_in_range op.
Proof.
  intros (space & src & tgt & crbf & degree & k & garbage & tr & Hsp & Hfit
            & H).
  unfold MovingLeastSquares_ctor in H.
  apply init_returns in H as (Hk & HN & _ & sv & Hsolve & Hwf & He0 & He1
    & Hs0 & Hs1 & Hcells); [|done].
  rewrite (source_size_fits src Hfit) in HN, Hk.
  apply coefficients_table in Hsolve as (Hc0 & Hc1 & Hfilled).
  assert (Hcell : forall i j,
    0 <= i < Z.of_nat (extent0 (_values_indices op)) ->
    0 <= j < Z.of_nat (extent1 (_values_indices op)) ->
    exists index, view2_at (_values_indices op) i j = Ok index /\
                  0 <= index < _source_size op).
  { intros i j Hi Hj.
    destruct (Hcells i j) as (o & index & p & _ & _ & Hp & Hvi & _).
    { lia. }
    { lia. }
    exists index. split; [done|]. rewrite HN. by eapply acc_get_in_range. }
  split.
  - unfold operator_wf. rewrite Hc0, Hc1, He1, Hs1, HN.
    assert (extent0 sv = extent0 (_values_indices op)) as -> by lia.
    split_and!; [done..| |lia|lia].
    intros i j Hi%in_range_spec Hj%in_range_spec.
    destruct (Hcell i j Hi Hj) as (index & ? & _). eauto.
  - intros t j index Hvi.
    destruct (view2_at_in_range _ _ _ _ Hvi) as [Ht Hj].
    destruct (Hcell t j Ht Hj) as (index' & Hvi' & ?). congruence.
Qed.

(** How the constructor runs when the number of neighbours is
    admissible and the segments of the query result can be read: it
    fills the two tables, hands the table of coordinates to the solver,
    and ends as the solver does. *)
Lemma init_runs space source_points target_points crbf degree
  num_neighbors self tr :
  valid_space space ->
  let k := num_neighbors_val degree num_neighbors in
  let q := ctor_query space source_points target_points k in
  let source_size := to_int (acc_size source_points) in
  let num_targets := to_int (acc_size target_points) in
  0 < k <= source_size ->
  0 <= num_targets ->
  (forall i j, 0 <= i < num_targets -> 0 <= j < k ->
     exists o index p,
       view1_at q.2 i = Ok o /\ view1_at q.1 (o + j) = Ok index /\
       acc_get source_points index = Ok p) ->
  exists source_view self',
    fillValuesIndicesAndGetSourceView space q.1 q.2 num_targets k
      source_points (set_source_size source_size self)
      (tr ++ [EvBuildTree; EvQuery])
    = (Ok source_view, self', tr ++ [EvBuildTree; EvQuery]) /\
    MovingLeastSquares_init space source_points target_points crbf degree
      num_neighbors self tr
    = match movingLeastSquaresCoefficients crbf degree space source_view
              target_points with
      | Ok coeffs =>
          (Ok tt, set_coeffs coeffs self',
           tr ++ [EvBuildTree; EvQuery; EvSolve])
      | Abort e => (Abort e, self', tr ++ [EvBuildTree; EvQuery; EvSolve])
      end.
Proof.
  intros Hsp k q source_size num_targets Hk Hm Hreads.
  unfold MovingLeastSquares_init. fold k source_size num_targets.
  unfold ctor_query in q. fold q.
  destruct q as [indices offsets]. cbn [fst snd] in Hreads |- *.
  destruct (fill_succeeds space indices offsets num_targets k
              source_points (set_source_size source_size self)
              (tr ++ [EvBuildTree; EvQuery]) Hsp)
    as (sv & self' & Hfill); [lia|lia|done|].
  exists sv, self'. split; [done|].
  unfold bind at 1. unfold modify at 1.
  unfold bind at 1. unfold gets at 1.
  unfold bind at 1. unfold KOKKOS_ASSERT.
  cbn [_source_size set_source_size].
  destruct (Z.ltb_spec 0 k); [|lia].
  destruct (Z.leb_spec k source_size); [|lia].
  cbn [andb]. unfold ret at 1.
  unfold bind at 1. unfold emit at 1.
  unfold bind at 1. unfold emit at 1.
  rewrite <- app_assoc. cbn [app].
  unfold bind at 1. rewrite Hfill.
  unfold bind at 1. unfold emit at 1.
  unfold bind, lift. rewrite <- app_assoc. cbn [app].
  destruct (movingLeastSquaresCoefficients crbf degree space sv
              target_points) as [coeffs|e]; done.
Qed.

(** The tables of a constructed operator, read as functions. *)
Lemma constructed_tables_as_functions (d : FloatingCalculationType)
  (op : MovingLeastSquares) :
  constructed op ->
  exists (coeff : Z -> Z -> FloatingCalculationType) (index : Z -> Z -> Z),
    forall t j,
      0 <= t < Z.of_nat (extent0 (_values_indices op)) ->
      0 <= j < Z.of_nat (extent1 (_values_indices op)) ->
      view2_at (_coeffs op) t j = Ok (coeff t j) /\
      view2_at (_values_indices op) t j = Ok (index t j).
Proof.
  intros [(He0 & He1 & Hc & Hvi & _) _]%constructed_wf.
  exists (fun t j => match view2_at (_coeffs op) t j with
                     | Ok x => x
                     | Abort _ => d
                     end),
         (fun t j => match view2_at (_values_indices op) t j with
                     | Ok x => x
                     | Abort _ => 0
                     end).
  intros t j Ht Hj. split.
  - destruct (Hc t j) as [x ->]; [apply in_range_spec; lia..|]. done.
  - destruct (Hvi t j) as [x ->]; [by apply in_range_spec..|]. done.
Qed.

(** ** [interpolate]: the sum for one target *)

Lemma interpolate_term_run source_values i j tmp fr tr :
  interpolate_term source_values i j tmp fr tr =
  (term_value (this fr) source_values i j tmp, fr, tr).
Proof.
  unfold interpolate_term, term_value, bind, gets, lift, ret, abort.
  destruct (view2_at (_coeffs (this fr)) i j); [|done].
  destruct (view2_at (_values_indices (this fr)) i j); [|done].
  by destruct (view1_at source_values x0).
Qed.

Lemma interpolate_row_run source_values i js :
  forall tmp fr tr,
  for_fold js (interpolate_term source_values i) tmp fr tr =
  (row_value (this fr) source_values i js tmp, fr, tr).
Proof.
  induction js as [|j js IH]; intros tmp fr tr; simpl; [done|].
  unfold bind. rewrite interpolate_term_run.
  destruct (term_value (this fr) source_values i j tmp); [apply IH|done].
Qed.

Lemma row_value_fold self source_values i
  (coeff : Z -> FloatingCalculationType) (index : Z -> Z)
  (value : Z -> src_value_t) js :
  forall tmp,
  (forall j, j ∈ js ->
     view2_at (_coeffs self) i j = Ok (coeff j) /\
     view2_at (_values_indices self) i j = Ok (index j) /\
     view1_at source_values (index j) = Ok (value (index j))) ->
  row_value self source_values i js tmp =
  Ok (fold_left
        (fun tmp j => plus_assign tmp (times (coeff j) (value (index j))))
        js tmp).
Proof.
  induction js as [|j js IH]; intros tmp H; simpl; [done|].
  destruct (H j) as (Hc & Hix & Hv); [by left|].
  unfold term_value. rewrite Hc, Hix, Hv. apply IH.
  intros j' Hj'. apply H. by right.
Qed.

(** With well-formed tables and source values of the recorded length, the
    inner loop never leaves an array; it can only meet a source value that
    was never written. *)
Lemma row_value_in_bounds self source_values i js tmp e :
  operator_wf self -> indices_in_range self ->
  extent_int source_values = _source_size self ->
  0 <= i < Z.of_nat (extent0 (_values_indices self)) ->
  (forall j, j ∈ js -> 0 <= j < Z.of_nat (extent1 (_values_indices self))) ->
  row_value self source_values i js tmp = Abort e ->
  e = UninitializedRead.
Proof.
  intros (Hc0 & Hc1 & Hfilled & Hvi & _) Hindices Hlen Hi.
  revert tmp. induction js as [|j js IH]; intros tmp Hjs; simpl; [done|].
  assert (0 <= j < Z.of_nat (extent1 (_values_indices self))) as Hj
    by (apply Hjs; by left).
  destruct (Hfilled i j) as [c Hc].
  { apply in_range_spec. lia. }
  { apply in_range_spec. lia. }
  destruct (Hvi i j) as [index Hix]; [by apply in_range_spec..|].
  pose proof (Hindices i j index Hix) as Hrange.
  unfold term_value. rewrite Hc, Hix.
  unfold view1_at at 1.
  destruct (in_range index (length source_values)) eqn:Hin.
  - apply in_range_spec in Hin.
    destruct (source_values !! Z.to_nat index) as [[v|]|] eqn:Hv; simpl.
    + apply IH. intros j' Hj'. apply Hjs. by right.
    + congruence.
    + apply lookup_ge_None in Hv. lia.
  - apply in_range_false in Hin. unfold extent_int in Hlen. lia.
Qed.

(** ** [interpolate]: the loop over the targets *)

Lemma interpolate_body_run source_values num_neighbors i fr tr :
  interpolate_body source_values num_neighbors i fr tr =
  match row_value (this fr) source_values i (Zrange 0 num_neighbors) zero with
  | Ok tmp =>
      match view1_set (approx_values fr) i tmp with
      | Ok a' => (Ok tt, set_approx_values a' fr, tr ++ [EvWriteApprox i])
      | Abort e => (Abort e, fr, tr)
      end
  | Abort e => (Abort e, fr, tr)
  end.
Proof.
  unfold interpolate_body, bind. rewrite interpolate_row_run.
  destruct (row_value _ _ _ _ _) as [tmp|e]; [|done].
  unfold gets, lift, ret, abort, emit, modify.
  by destruct (view1_set (approx_values fr) i tmp).
Qed.

Lemma interpolate_loop_run source_values num_neighbors l :
  forall fr tr,
  for_each l (interpolate_body source_values num_neighbors) fr tr =
  let '(r, a, w) :=
    approx_loop (this fr) source_values num_neighbors l (approx_values fr) in
  (r, mkFrame (this fr) a, tr ++ map EvWriteApprox w).
Proof.
  induction l as [|i l IH]; intros [self a] tr; simpl.
  - by rewrite app_nil_r.
  - unfold bind. rewrite interpolate_body_run. cbn [this approx_values].
    destruct (row_value _ _ _ _ _) as [tmp|e]; [|by rewrite app_nil_r].
    destruct (view1_set a i tmp) as [a'|e]; [|by rewrite app_nil_r].
    rewrite IH. cbn [this approx_values set_approx_values].
    destruct (approx_loop _ _ _ _ _) as [[r a''] w].
    by rewrite <- app_assoc.
Qed.

(** The run of [interpolate], in one equation. *)
Lemma interpolate_run space source_values fr tr :
  interpolate space source_values fr tr =
  if _source_size (this fr) =? extent_int source_values then
    let num_targets := Z.of_nat (extent0 (_values_indices (this fr))) in
    let num_neighbors := Z.of_nat (extent1 (_values_indices (this fr))) in
    let '(r, a, w) :=
      approx_loop (this fr) source_values num_neighbors
        (range_order space 0 num_targets)
        (replicate (extent0 (_values_indices (this fr))) None) in
    (r, mkFrame (this fr) a,
     tr ++ EvRealloc num_targets :: map EvWriteApprox w)
  else (Abort ContractViolation, fr, tr).
Proof.
  unfold interpolate, bind, gets, KOKKOS_ASSERT.
  destruct (_source_size (this fr) =? extent_int source_values); [|done].
  unfold ret, reallocWithoutInitializing, view1_alloc, lift, emit, modify,
    parallel_for.
  destruct (Z.ltb_spec (Z.of_nat (extent0 (_values_indices (this fr)))) 0);
    [lia|].
  unfold ret. rewrite interpolate_loop_run, Nat2Z.id.
  cbn [this approx_values set_approx_values].
  destruct (approx_loop _ _ _ _ _) as [[r a] w].
  by rewrite <- app_assoc.
Qed.

Lemma approx_loop_length self source_values num_neighbors l :
  forall a, length (approx_loop self source_values num_neighbors l a).1.2
            = length a.
Proof.
  induction l as [|i l IH]; intros a; simpl; [done|].
  destruct (row_value _ _ _ _ _) as [tmp|e]; [|done].
  destruct (view1_set a i tmp) as [a'|e] eqn:Hset; [|done].
  specialize (IH a'). destruct (approx_loop _ _ _ _ _) as [[r a''] w].
  cbn [fst snd] in *. rewrite IH. by eapply view1_set_length.
Qed.

(** When the sum of every target of [l] is defined, the loop ends well,
    writes every target of [l], and leaves in each of them its sum. *)
Lemma approx_loop_values self source_values num_neighbors
  (val : Z -> value_t) l :
  forall a,
  (forall i, i ∈ l ->
     in_range i (length a) = true /\
     row_value self source_values i (Zrange 0 num_neighbors) zero
       = Ok (val i)) ->
  exists a',
    approx_loop self source_values num_neighbors l a = (Ok tt, a', l) /\
    (forall i, i ∈ l -> view1_at a' i = Ok (val i)) /\
    (forall i, i ∉ l -> view1_at a' i = view1_at a i).
Proof.
  induction l as [|i l IH]; intros a H; simpl.
  - exists a. split_and!; [done| |done].
    intros i Hi. by apply elem_of_nil in Hi.
  - destruct (H i) as [Hi Hrow]; [by left|]. rewrite Hrow.
    unfold view1_set at 1. rewrite Hi.
    set (a1 := <[Z.to_nat i:=Some (val i)]> a).
    assert (Hset : view1_set a i (val i) = Ok a1).
    { unfold view1_set. by rewrite Hi. }
    destruct (IH a1) as (a' & Hloop & Hin & Hout).
    { intros i' Hi'. destruct (H i') as [? ?]; [by right|].
      unfold a1. by rewrite length_insert. }
    exists a'. rewrite Hloop. split_and!; [done| |].
    + intros i' Hi'. destruct (decide (i' ∈ l)) as [?|Hnl]; [by apply Hin|].
      apply elem_of_cons in Hi' as [->|?]; [|done].
      rewrite (Hout i Hnl). by eapply view1_at_set_eq.
    + intros i' Hi'. apply not_elem_of_cons in Hi' as [Hne Hnl].
      rewrite (Hout i' Hnl). by eapply view1_at_set_ne.
Qed.

(** When no sum of a target of [l] can leave an array, neither can the
    loop. *)
Lemma approx_loop_in_bounds self source_values num_neighbors l :
  forall a e,
  (forall i, i ∈ l -> in_range i (length a) = true) ->
  (forall i e, i ∈ l ->
     row_value self source_values i (Zrange 0 num_neighbors) zero = Abort e ->
     e = UninitializedRead) ->
  (approx_loop self source_values num_neighbors l a).1.1 = Abort e ->
  e = UninitializedRead.
Proof.
  induction l as [|i l IH]; intros a e Hl Hrows; simpl; [done|].
  destruct (row_value _ _ _ _ _) as [tmp|e'] eqn:Hrow.
  - unfold view1_set at 1. rewrite (Hl i) by (by left).
    specialize (IH (<[Z.to_nat i:=Some tmp]> a) e).
    destruct (approx_loop _ _ _ _ _) as [[r a''] w]. cbn [fst] in *.
    apply IH.
    + intros i' Hi'. rewrite length_insert. apply Hl. by right.
    + intros i' e' Hi'. apply Hrows. by right.
  - cbn [fst]. intros [= <-]. eapply Hrows; [|done]. by left.
Qed.

(** ** Properties of [interpolate] *)

(** The sums that [interpolate] leaves in the output, for tables given
    as functions. *)
Lemma interpolate_sums
  (space : ExecutionSpace) (op : MovingLeastSquares)
  (source_values : View1 src_value_t) (approx_in : View1 value_t)
  (tr : list event)
  (coeff : Z -> Z -> FloatingCalculationType) (index : Z -> Z -> Z)
  (value : Z -> src_value_t) :
  valid_space space -> indices_in_range op ->
  (forall t j,
     0 <= t < Z.of_nat (extent0 (_values_indices op)) ->
     0 <= j < Z.of_nat (extent1 (_values_indices op)) ->
     view2_at (_coeffs op) t j = Ok (coeff t j) /\
     view2_at (_values_indices op) t j = Ok (index t j)) ->
  extent_int source_values = _source_size op ->
  (forall n, 0 <= n < _source_size op ->
     view1_at source_values n = Ok (value n)) ->
  exists approx tr',
    interpolate space source_values (mkFrame op approx_in) tr
      = (Ok tt, mkFrame op approx, tr') /\
    extent_int approx = Z.of_nat (extent0 (_values_indices op)) /\
    forall t, 0 <= t < Z.of_nat (extent0 (_values_indices op)) ->
      view1_at approx t =
      Ok (mls_sum (Z.of_nat (extent1 (_values_indices op)))
            (fun j => times (coeff t j) (value (index t j)))).
Proof.
  intros Hsp Hvi Htab Hlen Hval.
  set (M := extent0 (_values_indices op)) in *.
  set (K := Z.of_nat (extent1 (_values_indices op))) in *.
  set (val := fun t =>
         mls_sum K (fun j => times (coeff t j) (value (index t j)))).
  destruct (approx_loop_values op source_values K val
              (range_order space 0 (Z.of_nat M)) (replicate M None))
    as (approx & Hloop & Hin & _).
  { intros t Ht%range_order_elem; [|done]. split.
    - rewrite length_replicate. by apply in_range_spec.
    - unfold val, mls_sum.
      apply (row_value_fold op source_values t (coeff t) (index t) value).
      intros j Hj%elem_of_Zrange.
      destruct (Htab t j Ht Hj) as [Hc Hix].
      split_and!; [done..|]. apply Hval.
      eapply Hvi, Hix. }
  exists approx. eexists. split_and!.
  - rewrite interpolate_run. cbn [this approx_values].
    rewrite Hlen, Z.eqb_refl. cbv zeta. fold M K. rewrite Hloop. done.
  - pose proof (approx_loop_length op source_values K
                  (range_order space 0 (Z.of_nat M)) (replicate M None)) as Hl.
    rewrite Hloop, length_replicate in Hl. unfold extent_int.
    cbn [fst snd] in Hl. by rewrite Hl.
  - intros t Ht. apply Hin. by apply range_order_elem.
Qed.

(** C1. On a constructed operator whose tables are [coeff] and [index],
    and for source values [value] of the recorded length, [interpolate]
    returns, and leaves in the cell of every target [t] of the output the
    sum over [j = 0 .. K-1] of [coeff t j * value (index t j)]. *)
Theorem interpolate_weighted_sums
  (space : ExecutionSpace) (op : MovingLeastSquares)
  (source_values : View1 src_value_t) (approx_in : View1 value_t)
  (tr : list event)
  (coeff : Z -> Z -> FloatingCalculationType) (index : Z -> Z -> Z)
  (value : Z -> src_value_t) :
  valid_space space -> constructed op ->
  (forall t j,
     0 <= t < Z.of_nat (extent0 (_values_indices op)) ->
     0 <= j < Z.of_nat (extent1 (_values_indices op)) ->
     view2_at (_coeffs op) t j = Ok (coeff t j) /\
     view2_at (_values_indices op) t j = Ok (index t j)) ->
  extent_int source_values = _source_size op ->
  (forall n, 0 <= n < _source_size op ->
     view1_at source_values n = Ok (value n)) ->
  exists approx tr',
    interpolate space source_values (mkFrame op approx_in) tr
      = (Ok tt, mkFrame op approx, tr') /\
    extent_int approx = Z.of_nat (extent0 (_values_indices op)) /\
    forall t, 0 <= t < Z.of_nat (extent0 (_values_indices op)) ->
      view1_at approx t =
      Ok (mls_sum (Z.of_nat (extent1 (_values_indices op)))
            (fun j => times (coeff t j) (value (index t j)))).
Proof.
  intros Hsp Hop. apply interpolate_sums; [done|].
  by apply constructed_wf.
Qed.

(** C2. Whenever the size check passes, the call reallocates the output
    to the number of targets, whatever its length on entry; this is the
    first thing recorded by the call, every write of a target comes after
    it, and the output has that length when the call ends. *)
Theorem interpolate_reallocates_output
  (space : ExecutionSpace) (op : MovingLeastSquares)
  (source_values : View1 src_value_t) (approx_in : View1 value_t)
  (tr : list event) :
  extent_int source_values = _source_size op ->
  let run := interpolate space source_values (mkFrame op approx_in) tr in
  let num_targets := Z.of_nat (extent0 (_values_indices op)) in
  extent_int (approx_values run.1.2) = num_targets /\
  exists written,
    run.2 = tr ++ EvRealloc num_targets :: map EvWriteApprox written.
Proof.
  intros Hlen run num_targets. subst run.
  rewrite interpolate_run. cbn [this approx_values].
  rewrite Hlen, Z.eqb_refl. cbv zeta.
  pose proof (approx_loop_length op source_values
                (Z.of_nat (extent1 (_values_indices op)))
                (range_order space 0 num_targets)
                (replicate (extent0 (_values_indices op)) None)) as Hl.
  fold num_targets.
  destruct (approx_loop _ _ _ _ _) as [[r a] w]. cbn [fst snd] in *.
  rewrite length_replicate in Hl. split.
  - unfold extent_int. cbn [approx_values]. by rewrite Hl.
  - by exists w.
Qed.


(** [interpolate] never changes the operator, however the call ends. *)
Lemma interpolate_preserves_operator space source_values fr tr :
  this (interpolate space source_values fr tr).1.2 = this fr.
Proof.
  rewrite interpolate_run.
  destruct (_source_size (this fr) =? extent_int source_values); [|done].
  cbv zeta. by destruct (approx_loop _ _ _ _ _) as [[r a] w].
Qed.

(** How a call ends depends on the operator and the source values only,
    and so does what a call that ends well leaves behind: neither the
    contents of the output array on entry nor the log play a part. *)
Lemma interpolate_independent space source_values op a tr a' tr' :
  let run := interpolate space source_values (mkFrame op a) tr in
  let run' := interpolate space source_values (mkFrame op a') tr' in
  run.1.1 = run'.1.1 /\ (run.1.1 = Ok tt -> run.1.2 = run'.1.2).
Proof.
  intros run run'. subst run run'. rewrite !interpolate_run.
  cbn [this approx_values].
  destruct (_source_size op =? extent_int source_values).
  - cbv zeta. by destruct (approx_loop _ _ _ _ _) as [[r w] l].
  - by split.
Qed.

(** C8. [interpolate] leaves the operator as it was, however the call
    ends.  When two calls with different source values follow each other
    on one operator, each of them ends as it ends when it is run alone on
    an operator with the same tables and source size, whatever the output
    array and the log hold at that point, and when it ends well it leaves
    the same values in the output. *)
Theorem interpolate_reuse_independent
  (space : ExecutionSpace) (op : MovingLeastSquares)
  (values1 values2 : View1 src_value_t) (approx_in : View1 value_t)
  (tr : list event) :
  let run1 := interpolate space values1 (mkFrame op approx_in) tr in
  let run2 := interpolate space values2 run1.1.2 run1.2 in
  this run1.1.2 = op /\ this run2.1.2 = op /\
  forall (op' : MovingLeastSquares) (a' : View1 value_t) (tr' : list event),
    _coeffs op' = _coeffs op ->
    _values_indices op' = _values_indices op ->
    _source_size op' = _source_size op ->
    let alone1 := interpolate space values1 (mkFrame op' a') tr' in
    let alone2 := interpolate space values2 (mkFrame op' a') tr' in
    alone1.1.1 = run1.1.1 /\ alone2.1.1 = run2.1.1 /\
    (run1.1.1 = Ok tt ->
     approx_values alone1.1.2 = approx_values run1.1.2) /\
    (run2.1.1 = Ok tt ->
     approx_values alone2.1.2 = approx_values run2.1.2).
Proof.
  intros run1 run2.
  assert (Hop1 : this run1.1.2 = op).
  { apply (interpolate_preserves_operator space values1
             (mkFrame op approx_in) tr). }
  assert (Hop2 : this run2.1.2 = op).
  { unfold run2. by rewrite interpolate_preserves_operator. }
  split; [done|]. split; [done|].
  intros op' a' tr' Hc Hvi Hn alone1 alone2.
  assert (op' = op) as ->.
  { destruct op', op. cbn in *. congruence. }
  destruct (interpolate_independent space values1 op a' tr' approx_in tr)
    as [Hr1 Hfr1].
  assert (Hfr : run1.1.2 = mkFrame op (approx_values run1.1.2)).
  { destruct run1.1.2 as [o a]. cbn in *. by subst. }
  destruct (interpolate_independent space values2 op a' tr'
              (approx_values run1.1.2) run1.2) as [Hr2 Hfr2].
  fold alone1 run1 in Hr1, Hfr1. fold alone2 in Hr2, Hfr2.
  rewrite <- Hfr in Hr2, Hfr2. fold run2 in Hr2, Hfr2.
  split_and!; [done..| |].
  - intros Hok. rewrite Hfr1; [done|congruence].
  - intros Hok. rewrite Hfr2; [done|congruence].
Qed.

(** C10. On a constructed operator whose stored indices all lie in
    [0 .. N-1], and for source values of length [N], no access of the loop
    over the targets leaves its array: the call never stops with
    [OutOfBounds].  It ends well, unless it meets a source value that was
    never written. *)
Theorem interpolate_accesses_in_bounds
  (space : ExecutionSpace) (op : MovingLeastSquares)
  (source_values : View1 src_value_t) (approx_in : View1 value_t)
  (tr : list event) :
  valid_space space -> constructed op ->
  (forall t j index,
     view2_at (_values_indices op) t j = Ok index ->
     0 <= index < _source_size op) ->
  extent_int source_values = _source_size op ->
  let run := interpolate space source_values (mkFrame op approx_in) tr in
  run.1.1 <> Abort OutOfBounds /\
  (run.1.1 = Ok tt \/ run.1.1 = Abort UninitializedRead).
Proof.
  intros Hsp Hop Hindices Hlen run.
  pose proof (constructed_wf op Hop) as [Hwf _].
  assert (Hsafe : forall e, run.1.1 = Abort e -> e = UninitializedRead).
  { intros e. unfold run. rewrite interpolate_run. cbn [this approx_values].
    rewrite Hlen, Z.eqb_refl. cbv zeta.
    pose proof (approx_loop_in_bounds op source_values
                  (Z.of_nat (extent1 (_values_indices op)))
                  (range_order space 0
                     (Z.of_nat (extent0 (_values_indices op))))
                  (replicate (extent0 (_values_indices op)) None) e) as H.
    destruct (approx_loop _ _ _ _ _) as [[r a] w]. cbn [fst snd] in *.
    apply H.
    - intros t Ht%range_order_elem; [|done].
      rewrite length_replicate. by apply in_range_spec.
    - intros t e' Ht%range_order_elem; [|done].
      apply row_value_in_bounds; [done..|].
      intros j Hj%elem_of_Zrange. done. }
  split.
  - intros H. by apply Hsafe in H.
  - destruct run.1.1 as [[]|e] eqn:Hr; [by left|right].
    by rewrite (Hsafe e eq_refl).
Qed.

(** ** Properties of the constructor *)

(** C3. Given a query result whose segments can be read, the function
    returns, and for every target [t] and slot [j] the entry of the table
    of neighbour indices is [indices (offsets t + j)] and the entry of the
    table of neighbour coordinates is the source point at that index;
    both tables have one row per target and one column per neighbour. *)
Theorem fill_reshapes_query_result
  (space : ExecutionSpace) (indices offsets : View1 Z)
  (num_targets num_neighbors : Z) (source_points : Points)
  (self : MovingLeastSquares) (tr : list event) :
  valid_space space -> 0 <= num_targets -> 0 <= num_neighbors ->
  (forall t j, 0 <= t < num_targets -> 0 <= j < num_neighbors ->
     exists o index p,
       view1_at offsets t = Ok o /\ view1_at indices (o + j) = Ok index /\
       acc_get source_points index = Ok p) ->
  exists source_view self',
    fillValuesIndicesAndGetSourceView space indices offsets num_targets
      num_neighbors source_points self tr = (Ok source_view, self', tr) /\
    Z.of_nat (extent0 (_values_indices self')) = num_targets /\
    Z.of_nat (extent1 (_values_indices self')) = num_neighbors /\
    Z.of_nat (extent0 source_view) = num_targets /\
    Z.of_nat (extent1 source_view) = num_neighbors /\
    forall t j, 0 <= t < num_targets -> 0 <= j < num_neighbors ->
      exists o index p,
        view1_at offsets t = Ok o /\
        view1_at indices (o + j) = Ok index /\
        acc_get source_points index = Ok p /\
        view2_at (_values_indices self') t j = Ok index /\
        view2_at source_view t j = Ok p.
Proof.
  intros Hsp Hm Hk Hreads.
  destruct (fill_succeeds space indices offsets num_targets num_neighbors
              source_points self tr Hsp Hm Hk Hreads) as (sv & self' & Hrun).
  exists sv, self'. split; [done|].
  apply fill_returns in Hrun
    as (_ & _ & _ & (_ & _ & He0 & He1 & Hs0 & Hs1 & _) & Hcells); [|done].
  cbn [fst snd] in *. split_and!; [lia..|].
  intros t j Ht Hj. apply (Hcells t j Ht Hj).
Qed.

(** The assertion of the constructor: a number of neighbours that is not
    positive or exceeds the recorded number of source points stops the
    run before anything is logged. *)
Lemma init_rejects space source_points target_points crbf degree
  num_neighbors self tr :
  ~ 0 < num_neighbors_val degree num_neighbors
        <= to_int (acc_size source_points) ->
  MovingLeastSquares_init space source_points target_points crbf degree
    num_neighbors self tr
  = (Abort ConfigurationError,
     set_source_size (to_int (acc_size source_points)) self, tr).
Proof.
  intros Hk. unfold MovingLeastSquares_init.
  unfold bind at 1. unfold modify at 1.
  unfold bind at 1. unfold gets at 1.
  unfold bind at 1. unfold KOKKOS_ASSERT.
  cbn [_source_size set_source_size].
  destruct (Z.ltb_spec 0 (num_neighbors_val degree num_neighbors)); [|done].
  destruct (Z.leb_spec (num_neighbors_val degree num_neighbors)
              (to_int (acc_size source_points))); [lia|done].
Qed.

(** C4. With a number of neighbours that is not positive or exceeds the
    number of source points, the constructor stops as a configuration
    error and yields no operator; nothing has been added to the log at
    that point, so neither the tree has been built nor the query or the
    solver run. *)
Theorem ctor_rejects_neighbor_count
  (space : ExecutionSpace) (source_points target_points : Points)
  (crbf : option CRBF) (degree : option PolynomialDegree)
  (num_neighbors : option Z) (self : MovingLeastSquares) (tr : list event) :
  let k := num_neighbors_val (default default_PolynomialDegree degree)
             num_neighbors in
  k <= 0 \/ k > acc_size source_points ->
  MovingLeastSquares_ctor space source_points target_points crbf degree
    num_neighbors self tr
  = (Abort ConfigurationError,
     set_source_size (to_int (acc_size source_points)) self, tr).
Proof.
  intros k Hk. apply init_rejects. fold k.
  pose proof (to_int_le _ (acc_size_nonneg source_points)). lia.
Qed.


(** C7, as amended. The state of a constructed operator is its table of
    neighbour indices, its table of coefficients and the number of source
    points: two constructed operators that agree on the three are the
    same operator, whatever point sets and trees they were built from,
    and [interpolate] cannot tell them apart. *)
Theorem operator_retains_tables_and_size (op1 op2 : MovingLeastSquares) :
  constructed op1 -> constructed op2 ->
  _values_indices op1 = _values_indices op2 ->
  _coeffs op1 = _coeffs op2 ->
  _source_size op1 = _source_size op2 ->
  op1 = op2 /\
  forall space source_values approx_in tr,
    interpolate space source_values (mkFrame op1 approx_in) tr
    = interpolate space source_values (mkFrame op2 approx_in) tr.
Proof.
  intros _ _ Hvi Hc Hn.
  assert (op1 = op2) as ->; [|done].
  destruct op1, op2. cbn in *. congruence.
Qed.

(** ** Further properties: the predicates *)

Lemma lookup_map {A B} (f : A -> B) (l : list A) (n : nat) :
  map f l !! n = f <$> (l !! n).
Proof.
  revert n. induction l as [|x l IH]; intros [|n]; simpl; auto.
Qed.

Lemma lookup_Zrange (b e : Z) (n : nat) :
  Zrange b e !! n =
  if decide (n < Z.to_nat (e - b))%nat then Some (b + Z.of_nat n) else None.
Proof.
  unfold Zrange. rewrite lookup_map.
  destruct (decide (n < Z.to_nat (e - b))%nat) as [Hn|Hn].
  - by rewrite lookup_seq_lt.
  - rewrite lookup_seq_ge by lia. done.
Qed.

Lemma acc_get_lookup (pts : Points) (n : nat) (p : Point) :
  pts !! n = Some p -> acc_get pts (Z.of_nat n) = Ok p.
Proof.
  intros Hp. unfold acc_get.
  assert (in_range (Z.of_nat n) (length pts) = true) as ->.
  { apply in_range_spec. apply lookup_lt_Some in Hp. lia. }
  by rewrite Nat2Z.id, Hp.
Qed.

Lemma acc_get_outside (pts : Points) (i : Z) :
  ~ (0 <= i < acc_size pts) -> acc_get pts i = Abort OutOfBounds.
Proof.
  intros Hi. unfold acc_get.
  by apply in_range_false in Hi as ->.
Qed.

(** X1. Read through [size] and [get], the wrapper yields one predicate
    per target point, in the order of the target points, and every one of
    them asks for the [num_neighbors] nearest neighbours of its point; a
    [get] outside [0 .. size-1] leaves the target points. *)
Theorem predicates_one_per_target (tp : MLSTargetPointsPredicateWrapper) :
  map (predicates_get tp) (Zrange 0 (predicates_size tp))
  = map (fun p => Ok (nearest p (num_neighbors tp))) (target_points tp) /\
  forall i, ~ (0 <= i < predicates_size tp) ->
    predicates_get tp i = Abort OutOfBounds.
Proof.
  split.
  - apply list_eq. intros n. rewrite !lookup_map, lookup_Zrange.
    unfold predicates_size, acc_size.
    replace (Z.to_nat (Z.of_nat (length (target_points tp)) - 0))
      with (length (target_points tp)) by lia.
    destruct (decide (n < length (target_points tp))%nat) as [Hn|Hn].
    + destruct (lookup_lt_is_Some_2 _ _ Hn) as [p Hp].
      rewrite Hp. change (0 + Z.of_nat n) with (Z.of_nat n).
      cbn [fmap option_fmap option_map]. unfold predicates_get.
      by rewrite (acc_get_lookup _ _ _ Hp).
    + rewrite lookup_ge_None_2 by lia. done.
  - intros i Hi. unfold predicates_get.
    by rewrite acc_get_outside.
Qed.

(** ** Further properties: the constructor *)

(** X2. An operator that the constructor yields records the number of
    source points, has one row of neighbour indices per target point and
    one column per neighbour, with at least one neighbour and no more
    neighbours than source points; its coefficients are the answer of the
    solver, asked with the kernel and the degree in use, for a table of
    coordinates of the same extents; and the run has built the tree, run
    the query and run the solver, once each and in this order.  The two
    numbers are those that the constructor has stored as [int]. *)
Theorem ctor_operator_shape
  (space : ExecutionSpace) (source_points target_points : Points)
  (crbf : option CRBF) (degree : option PolynomialDegree)
  (num_neighbors : option Z) (self : MovingLeastSquares) (tr : list event)
  (op : MovingLeastSquares) (tr' : list event) :
  valid_space space ->
  MovingLeastSquares_ctor space source_points target_points crbf degree
    num_neighbors self tr = (Ok tt, op, tr') ->
  let k := num_neighbors_val (default default_PolynomialDegree degree)
             num_neighbors in
  0 < k <= to_int (acc_size source_points) /\
  _source_size op = to_int (acc_size source_points) /\
  Z.of_nat (extent0 (_values_indices op)) = to_int (acc_size target_points) /\
  Z.of_nat (extent1 (_values_indices op)) = k /\
  tr' = tr ++ [EvBuildTree; EvQuery; EvSolve] /\
  exists source_view,
    movingLeastSquaresCoefficients (default default_CRBF crbf)
      (default default_PolynomialDegree degree) space source_view
      target_points = Ok (_coeffs op) /\
    Z.of_nat (extent0 source_view) = to_int (acc_size target_points) /\
    Z.of_nat (extent1 source_view) = k.
Proof.
  intros Hsp H k. unfold MovingLeastSquares_ctor in H.
  apply init_returns in H
    as (Hk & HN & Htr & sv & Hsolve & _ & He0 & He1 & Hs0 & Hs1 & _);
    [|done].
  fold k in Hk, He1, Hs1.
  split_and!; [lia|lia|done|done|lia|done|].
  exists sv. split_and!; [done|done|lia].
Qed.

(** X3. In an operator that the constructor yields, the entry of the
    table of neighbour indices for target [t] and slot [j] is entry
    [offsets t + j] of the indices that the query returned, and it is the
    position of a source point; it lies in [0 .. N-1] for the recorded
    number [N] of source points when the number of source points fits an
    [int]. *)
Theorem ctor_indices_from_query
  (space : ExecutionSpace) (source_points target_points : Points)
  (crbf : option CRBF) (degree : option PolynomialDegree)
  (num_neighbors : option Z) (self : MovingLeastSquares) (tr : list event)
  (op : MovingLeastSquares) (tr' : list event) :
  valid_space space ->
  MovingLeastSquares_ctor space source_points target_points crbf degree
    num_neighbors self tr = (Ok tt, op, tr') ->
  let k := num_neighbors_val (default default_PolynomialDegree degree)
             num_neighbors in
  let q := ctor_query space source_points target_points k in
  forall t j, 0 <= t < to_int (acc_size target_points) -> 0 <= j < k ->
    exists o index,
      view1_at q.2 t = Ok o /\
      view1_at q.1 (o + j) = Ok index /\
      view2_at (_values_indices op) t j = Ok index /\
      0 <= index < acc_size source_points /\
      (acc_size source_points <= INT_MAX -> index < _source_size op).
Proof.
  intros Hsp H k q t j Ht Hj. unfold MovingLeastSquares_ctor in H.
  apply init_returns in H
    as (_ & HN & _ & sv & _ & _ & _ & _ & _ & _ & Hcells); [|done].
  destruct (Hcells t j Ht Hj) as (o & index & p & Ho & Hix & Hp & Hvi & _).
  exists o, index. cbn [fst snd] in Hvi.
  apply acc_get_in_range in Hp.
  split; [exact Ho|]. split; [exact Hix|]. split; [exact Hvi|].
  split; [lia|]. intros Hfit. rewrite HN, (source_size_fits _ Hfit). lia.
Qed.

(** X4. When the number of neighbours in use is at least one and at most
    the number of source points as recorded, the number of targets as
    recorded is not negative, and every segment of the query result can
    be read up to that number of neighbours and holds positions of source
    points, the constructor builds the tree, runs the query, fills the
    two tables and runs the solver on the table of coordinates; it then
    ends as the solver does: it returns the operator with the solver's
    coefficients, or stops with the solver's error. *)
Theorem ctor_returns
  (space : ExecutionSpace) (source_points target_points : Points)
  (crbf : option CRBF) (degree : option PolynomialDegree)
  (num_neighbors : option Z) (self : MovingLeastSquares) (tr : list event) :
  valid_space space ->
  let k := num_neighbors_val (default default_PolynomialDegree degree)
             num_neighbors in
  let q := ctor_query space source_points target_points k in
  let N := to_int (acc_size source_points) in
  let M := to_int (acc_size target_points) in
  0 < k <= N ->
  0 <= M ->
  (forall t j, 0 <= t < M -> 0 <= j < k ->
     exists o index p,
       view1_at q.2 t = Ok o /\ view1_at q.1 (o + j) = Ok index /\
       acc_get source_points index = Ok p) ->
  exists source_view self',
    fillValuesIndicesAndGetSourceView space q.1 q.2 M k source_points
      (set_source_size N self) (tr ++ [EvBuildTree; EvQuery])
    = (Ok source_view, self', tr ++ [EvBuildTree; EvQuery]) /\
    MovingLeastSquares_ctor space source_points target_points crbf degree
      num_neighbors self tr
    = match movingLeastSquaresCoefficients (default default_CRBF crbf)
              (default default_PolynomialDegree degree) space source_view
              target_points with
      | Ok coeffs =>
          (Ok tt, set_coeffs coeffs self',
           tr ++ [EvBuildTree; EvQuery; EvSolve])
      | Abort e => (Abort e, self', tr ++ [EvBuildTree; EvQuery; EvSolve])
      end.
Proof.
  intros Hsp k q N M Hk HM Hreads. unfold MovingLeastSquares_ctor.
  by apply init_runs.
Qed.

(** X5. Over an empty set of source points the constructor stops as a
    configuration error whatever number of neighbours is asked for, given
    or left out, and before the tree is built. *)
Theorem ctor_rejects_empty_source
  (space : ExecutionSpace) (target_points : Points)
  (crbf : option CRBF) (degree : option PolynomialDegree)
  (num_neighbors : option Z) (self : MovingLeastSquares) (tr : list event) :
  MovingLeastSquares_ctor space [] target_points crbf degree
    num_neighbors self tr
  = (Abort ConfigurationError, set_source_size 0 self, tr).
Proof.
  unfold MovingLeastSquares_ctor.
  change 0 with (to_int (acc_size [])) at 1.
  apply init_rejects. change (to_int (acc_size [])) with 0. lia.
Qed.

(** X16. A number of source points that exceeds [INT_MAX] and is below
    [2 ^ 32] is recorded as a negative number, and the constructor stops
    as a configuration error whatever number of neighbours is asked for,
    given or left out, before the tree is built. *)
Theorem ctor_rejects_oversized_source
  (space : ExecutionSpace) (source_points target_points : Points)
  (crbf : option CRBF) (degree : option PolynomialDegree)
  (num_neighbors : option Z) (self : MovingLeastSquares) (tr : list event) :
  INT_MAX < acc_size source_points < 2 ^ 32 ->
  MovingLeastSquares_ctor space source_points target_points crbf degree
    num_neighbors self tr
  = (Abort ConfigurationError,
     set_source_size (acc_size source_points - 2 ^ 32) self, tr).
Proof.
  intros HN. unfold MovingLeastSquares_ctor.
  rewrite <- (to_int_wraps _ HN).
  apply init_rejects. rewrite (to_int_wraps _ HN). lia.
Qed.

(** ** Further properties: [fillValuesIndicesAndGetSourceView] *)




(** X7. For extents that are not negative, the function returns exactly
    when, for every target [t] and slot [j], the offset of [t], the index
    at that offset plus [j] and the source point at that index can be
    read.  Nothing else of the query result is needed: neither the
    offset that closes the last segment nor the length of a segment. *)
Theorem fill_returns_iff_readable
  (space : ExecutionSpace) (indices offsets : View1 Z)
  (num_targets num_neighbors : Z) (source_points : Points)
  (self : MovingLeastSquares) (tr : list event) :
  valid_space space -> 0 <= num_targets -> 0 <= num_neighbors ->
  (exists source_view self' tr',
     fillValuesIndicesAndGetSourceView space indices offsets num_targets
       num_neighbors source_points self tr = (Ok source_view, self', tr'))
  <->
  (forall t j, 0 <= t < num_targets -> 0 <= j < num_neighbors ->
     exists o index p,
       view1_at offsets t = Ok o /\ view1_at indices (o + j) = Ok index /\
       acc_get source_points index = Ok p).
Proof.
  intros Hsp Hm Hk. split.
  - intros (sv & self' & tr' & Hrun) t j Ht Hj.
    apply fill_returns in Hrun as (_ & _ & _ & _ & Hcells); [|done].
    destruct (Hcells t j Ht Hj) as (o & index & p & ? & ? & ? & _).
    by exists o, index, p.
  - intros Hreads.
    destruct (fill_succeeds space indices offsets num_targets num_neighbors
                source_points self tr Hsp Hm Hk Hreads) as (sv & self' & H).
    by exists sv, self', tr.
Qed.

Lemma cell_read_Ok {A} (c : option (option A)) (x : A) :
  cell_read c = Ok x -> c = Some (Some x).
Proof. destruct c as [[y|]|]; simpl; congruence. Qed.

(** Two well-formed tables of the same extents that hold the same value
    in every cell are the same table. *)
Lemma view2_ext {A} (v v' : View2 A) :
  view2_wf v -> view2_wf v' ->
  extent0 v = extent0 v' -> extent1 v = extent1 v' ->
  (forall i j,
     0 <= i < Z.of_nat (extent0 v) -> 0 <= j < Z.of_nat (extent1 v) ->
     exists x, view2_at v i j = Ok x /\ view2_at v' i j = Ok x) ->
  v = v'.
Proof.
  destruct v as [e0 e1 r], v' as [e0' e1' r'].
  unfold view2_wf. cbn [extent0 extent1 rows].
  intros [Hl Hr] [Hl' Hr'] <- <- H. f_equal.
  apply list_eq. intros n.
  destruct (decide (n < e0)%nat) as [Hn|Hn].
  2: { rewrite !lookup_ge_None_2 by lia. done. }
  destruct (lookup_lt_is_Some_2 r n) as [row Hrow]; [lia|].
  destruct (lookup_lt_is_Some_2 r' n) as [row' Hrow']; [lia|].
  rewrite Hrow, Hrow'. f_equal.
  rewrite Forall_lookup in Hr. rewrite Forall_lookup in Hr'.
  pose proof (Hr _ _ Hrow) as Hlen. pose proof (Hr' _ _ Hrow') as Hlen'.
  apply list_eq. intros m.
  destruct (decide (m < e1)%nat) as [Hm|Hm].
  2: { rewrite !lookup_ge_None_2 by lia. done. }
  destruct (H (Z.of_nat n) (Z.of_nat m)) as (x & Hx & Hx'); [lia..|].
  unfold view2_at in Hx, Hx'. cbn [extent0 extent1 rows] in Hx, Hx'.
  assert (in_range (Z.of_nat n) e0 = true) as Hin
    by (apply in_range_spec; lia).
  assert (in_range (Z.of_nat m) e1 = true) as Him
    by (apply in_range_spec; lia).
  rewrite Hin, Him, !Nat2Z.id in Hx, Hx'. cbn [andb] in Hx, Hx'.
  rewrite Hrow in Hx. rewrite Hrow' in Hx'.
  apply cell_read_Ok in Hx. apply cell_read_Ok in Hx'. congruence.
Qed.

(** X8. The order in which the execution space runs the iterations of
    the loop plays no part: when the function returns under one execution
    space, it returns under every other one with the same two tables. *)
Theorem fill_order_independent
  (space space' : ExecutionSpace) (indices offsets : View1 Z)
  (num_targets num_neighbors : Z) (source_points : Points)
  (self : MovingLeastSquares) (tr : list event)
  (source_view : View2 Point) (self' : MovingLeastSquares)
  (tr' : list event) :
  valid_space space -> valid_space space' ->
  fillValuesIndicesAndGetSourceView space indices offsets num_targets
    num_neighbors source_points self tr = (Ok source_view, self', tr') ->
  fillValuesIndicesAndGetSourceView space' indices offsets num_targets
    num_neighbors source_points self tr = (Ok source_view, self', tr').
Proof.
  intros Hsp Hsp' Hrun.
  apply fill_returns in Hrun as (-> & Hm & Hk & Hinv & Hcells); [|done].
  destruct (fill_succeeds space' indices offsets num_targets num_neighbors
              source_points self tr Hsp' Hm Hk)
    as (sv2 & self2 & Hrun2).
  { intros t j Ht Hj.
    destruct (Hcells t j Ht Hj) as (o & index & p & ? & ? & ? & _).
    by exists o, index, p. }
  rewrite Hrun2.
  apply fill_returns in Hrun2 as (_ & _ & _ & Hinv2 & Hcells2); [|done].
  destruct Hinv as (Hwf1 & Hwf2 & He0 & He1 & Hs0 & Hs1 & Hc & Hn).
  destruct Hinv2 as (Hwf1' & Hwf2' & He0' & He1' & Hs0' & Hs1' & Hc' & Hn').
  cbn [fst snd] in *.
  assert (Hsv : sv2 = source_view).
  { apply view2_ext; [done|done|congruence|congruence|].
    intros i j Hi Hj.
    destruct (Hcells i j) as (o & index & p & Ho & Hix & Hp & _ & Hx);
      [lia..|].
    destruct (Hcells2 i j) as (o' & index' & p' & Ho' & Hix' & Hp' & _ & Hx');
      [lia..|].
    cbn [fst snd] in *. exists p. split; [|done].
    rewrite Hx'. congruence. }
  assert (Hvi : _values_indices self2 = _values_indices self').
  { apply view2_ext; [done|done|congruence|congruence|].
    intros i j Hi Hj.
    destruct (Hcells i j) as (o & index & p & Ho & Hix & _ & Hx & _);
      [lia..|].
    destruct (Hcells2 i j) as (o' & index' & p' & Ho' & Hix' & _ & Hx' & _);
      [lia..|].
    cbn [fst snd] in *. exists index. split; [|done].
    rewrite Hx'. congruence. }
  subst sv2. do 2 f_equal.
  destruct self2, self'. cbn in *. congruence.
Qed.

(** ** Further properties: [interpolate] *)

Lemma approx_loop_Ok_inv self source_values num_neighbors l :
  forall a a' w,
  approx_loop self source_values num_neighbors l a = (Ok tt, a', w) ->
  w = l /\
  forall i, i ∈ l ->
    in_range i (length a) = true /\
    exists v,
      row_value self source_values i (Zrange 0 num_neighbors) zero = Ok v.
Proof.
  induction l as [|i l IH]; intros a a' w H; simpl in H.
  - injection H as <- <-. split; [done|].
    intros i Hi. by apply elem_of_nil in Hi.
  - destruct (row_value _ _ i _ _) as [tmp|e] eqn:Hrow; [|discriminate].
    destruct (view1_set a i tmp) as [a1|e] eqn:Hset; [|discriminate].
    destruct (approx_loop _ _ _ l a1) as [[r a2] w2] eqn:Hloop.
    injection H as -> -> <-.
    destruct (IH _ _ _ Hloop) as [-> Hl]. split; [done|].
    pose proof (view1_set_inv _ _ _ _ Hset) as [Hi _].
    pose proof (view1_set_length _ _ _ _ Hset) as Hlen.
    intros i' [->|Hi']%elem_of_cons; [eauto|].
    destruct (Hl i' Hi') as [Hin Hv]. rewrite Hlen in Hin. eauto.
Qed.

(** What a loop over the targets that ended well has left behind. *)
Lemma approx_loop_Ok_cells self source_values num_neighbors l a a' w :
  approx_loop self source_values num_neighbors l a = (Ok tt, a', w) ->
  w = l /\ length a' = length a /\
  (forall i, i ∈ l ->
     exists v,
       row_value self source_values i (Zrange 0 num_neighbors) zero = Ok v /\
       view1_at a' i = Ok v) /\
  (forall i, i ∉ l -> view1_at a' i = view1_at a i).
Proof.
  intros H.
  destruct (approx_loop_Ok_inv _ _ _ _ _ _ _ H) as [-> Hl].
  set (val := fun i =>
         match row_value self source_values i (Zrange 0 num_neighbors) zero
         with
         | Ok v => v
         | Abort _ => zero
         end).
  destruct (approx_loop_values self source_values num_neighbors val l a)
    as (a2 & Hrun & Hin & Hout).
  { intros i Hi. destruct (Hl i Hi) as [? [v Hv]]. split; [done|].
    unfold val. by rewrite Hv. }
  rewrite H in Hrun. injection Hrun as <-.
  pose proof (approx_loop_length self source_values num_neighbors l a) as Hlen.
  rewrite H in Hlen. cbn [fst snd] in Hlen.
  split_and!; [done|done| |done].
  intros i Hi. destruct (Hl i Hi) as [_ [v Hv]]. exists v. split; [done|].
  rewrite (Hin i Hi). unfold val. by rewrite Hv.
Qed.

(** A call that ended well has passed the size check and run the loop. *)
Lemma interpolate_Ok_inv space source_values op a tr fr tr' :
  interpolate space source_values (mkFrame op a) tr = (Ok tt, fr, tr') ->
  extent_int source_values = _source_size op /\
  exists a' w,
    approx_loop op source_values
      (Z.of_nat (extent1 (_values_indices op)))
      (range_order space 0 (Z.of_nat (extent0 (_values_indices op))))
      (replicate (extent0 (_values_indices op)) None) = (Ok tt, a', w) /\
    fr = mkFrame op a' /\
    tr' = tr ++ EvRealloc (Z.of_nat (extent0 (_values_indices op)))
                :: map EvWriteApprox w.
Proof.
  rewrite interpolate_run. cbn [this approx_values].
  destruct (Z.eqb_spec (_source_size op) (extent_int source_values))
    as [Heq|_]; [|discriminate].
  cbv zeta. destruct (approx_loop _ _ _ _ _) as [[r a'] w].
  intros [= -> <- <-]. split; [done|]. by exists a', w.
Qed.

Lemma view1_ext {A} (v v' : View1 A) :
  length v = length v' ->
  (forall i, 0 <= i < Z.of_nat (length v) ->
     exists x, view1_at v i = Ok x /\ view1_at v' i = Ok x) ->
  v = v'.
Proof.
  intros Hlen H. apply list_eq. intros n.
  destruct (decide (n < length v)%nat) as [Hn|Hn].
  2: { rewrite !lookup_ge_None_2 by lia. done. }
  destruct (H (Z.of_nat n)) as (x & Hx & Hx'); [lia|].
  unfold view1_at in Hx, Hx'. rewrite <- Hlen in Hx'.
  assert (in_range (Z.of_nat n) (length v) = true) as Hin
    by (apply in_range_spec; lia).
  rewrite Hin, Nat2Z.id in Hx, Hx'.
  apply cell_read_Ok in Hx. apply cell_read_Ok in Hx'. congruence.
Qed.

(** X9. A call that ends well has written every target exactly once: the
    writes it has recorded, after the reallocation, are an arrangement of
    the targets [0 .. M-1], the output has [M] cells, and every cell
    holds a value. *)
Theorem interpolate_writes_each_target_once
  (space : ExecutionSpace) (op : MovingLeastSquares)
  (source_values : View1 src_value_t) (approx_in : View1 value_t)
  (tr : list event) (fr : Frame) (tr' : list event) :
  valid_space space ->
  interpolate space source_values (mkFrame op approx_in) tr
    = (Ok tt, fr, tr') ->
  let num_targets := Z.of_nat (extent0 (_values_indices op)) in
  extent_int (approx_values fr) = num_targets /\
  (forall t, 0 <= t < num_targets ->
     exists v, view1_at (approx_values fr) t = Ok v) /\
  exists written,
    tr' = tr ++ EvRealloc num_targets :: map EvWriteApprox written /\
    written ≡ₚ Zrange 0 num_targets.
Proof.
  intros Hsp H num_targets.
  apply interpolate_Ok_inv in H as (_ & a' & w & Hloop & -> & ->).
  apply approx_loop_Ok_cells in Hloop as (-> & Hlen & Hin & _).
  rewrite length_replicate in Hlen. cbn [approx_values].
  split_and!.
  - unfold extent_int, num_targets. by rewrite Hlen.
  - intros t Ht. destruct (Hin t) as (v & _ & Hv); [|by exists v].
    by apply range_order_elem.
  - eexists. split; [done|]. apply Hsp.
Qed.

(** X10. The order in which the execution space runs the targets plays
    no part in the result: a call that ends well under one execution
    space ends well under every other one, with the same output. *)
Theorem interpolate_order_independent
  (space space' : ExecutionSpace) (op : MovingLeastSquares)
  (source_values : View1 src_value_t) (approx_in : View1 value_t)
  (tr : list event) (fr : Frame) (tr' : list event) :
  valid_space space -> valid_space space' ->
  interpolate space source_values (mkFrame op approx_in) tr
    = (Ok tt, fr, tr') ->
  exists tr'',
    interpolate space' source_values (mkFrame op approx_in) tr
      = (Ok tt, fr, tr'').
Proof.
  intros Hsp Hsp' H.
  apply interpolate_Ok_inv in H as (Hsize & a1 & w & Hloop & -> & ->).
  apply approx_loop_Ok_cells in Hloop as (-> & Hlen & Hin & _).
  set (M := extent0 (_values_indices op)) in *.
  set (K := Z.of_nat (extent1 (_values_indices op))) in *.
  set (val := fun i =>
         match row_value op source_values i (Zrange 0 K) zero with
         | Ok v => v
         | Abort _ => zero
         end).
  destruct (approx_loop_values op source_values K val
              (range_order space' 0 (Z.of_nat M)) (replicate M None))
    as (a2 & Hloop2 & Hin2 & _).
  { intros t Ht%range_order_elem; [|done]. split.
    - rewrite length_replicate. by apply in_range_spec.
    - destruct (Hin t) as (v & Hv & _); [by apply range_order_elem|].
      unfold val. by rewrite Hv. }
  pose proof (approx_loop_length op source_values K
                (range_order space' 0 (Z.of_nat M)) (replicate M None))
    as Hlen2.
  rewrite Hloop2 in Hlen2. cbn [fst snd] in Hlen2.
  assert (a2 = a1) as ->.
  { apply view1_ext; [congruence|].
    intros t Ht. rewrite Hlen2, length_replicate in Ht.
    destruct (Hin t) as (v & Hv & Hat); [by apply range_order_elem|].
    exists v. split; [|done].
    rewrite Hin2 by (by apply range_order_elem).
    unfold val. by rewrite Hv. }
  eexists. rewrite interpolate_run. cbn [this approx_values].
  rewrite Hsize, Z.eqb_refl. cbv zeta. fold M K. by rewrite Hloop2.
Qed.

Lemma row_value_ext self source_values source_values' i js :
  forall tmp,
  (forall j index, j ∈ js ->
     view2_at (_values_indices self) i j = Ok index ->
     view1_at source_values index = view1_at source_values' index) ->
  row_value self source_values i js tmp
  = row_value self source_values' i js tmp.
Proof.
  induction js as [|j js IH]; intros tmp H; simpl; [done|].
  assert (Hterm : term_value self source_values i j tmp
                  = term_value self source_values' i j tmp).
  { unfold term_value.
    destruct (view2_at (_coeffs self) i j) as [c|]; [|done].
    destruct (view2_at (_values_indices self) i j) as [index|] eqn:Hix;
      [|done].
    rewrite (H j index); [done|by left|done]. }
  rewrite Hterm.
  destruct (term_value self source_values' i j tmp); [|done].
  apply IH. intros j' index Hj'. apply H. by right.
Qed.

(** X11. The value left for a target depends on the source values only
    at the neighbour indices stored for that target: two calls on the
    same operator whose source values agree at these indices leave the
    same value for the target, whatever the other source values are. *)
Theorem interpolate_reads_only_neighbors
  (space : ExecutionSpace) (op : MovingLeastSquares)
  (source_values source_values' : View1 src_value_t)
  (approx_in approx_in' : View1 value_t) (tr tr0 : list event)
  (fr fr' : Frame) (tr' tr0' : list event) (t : Z) :
  valid_space space ->
  interpolate space source_values (mkFrame op approx_in) tr
    = (Ok tt, fr, tr') ->
  interpolate space source_values' (mkFrame op approx_in') tr0
    = (Ok tt, fr', tr0') ->
  0 <= t < Z.of_nat (extent0 (_values_indices op)) ->
  (forall j index,
     view2_at (_values_indices op) t j = Ok index ->
     view1_at source_values index = view1_at source_values' index) ->
  view1_at (approx_values fr) t = view1_at (approx_values fr') t.
Proof.
  intros Hsp H H' Ht Hagree.
  apply interpolate_Ok_inv in H as (_ & a1 & w & Hloop & -> & _).
  apply interpolate_Ok_inv in H' as (_ & a2 & w' & Hloop' & -> & _).
  apply approx_loop_Ok_cells in Hloop as (_ & _ & Hin & _).
  apply approx_loop_Ok_cells in Hloop' as (_ & _ & Hin' & _).
  destruct (Hin t) as (v & Hv & Hat); [by apply range_order_elem|].
  destruct (Hin' t) as (v' & Hv' & Hat'); [by apply range_order_elem|].
  cbn [approx_values]. rewrite Hat, Hat'. f_equal.
  rewrite (row_value_ext op source_values source_values') in Hv.
  - congruence.
  - intros j index _. apply Hagree.
Qed.






(** ** Further properties: the constructor followed by [interpolate] *)

Lemma init_indices_in_range space source_points target_points crbf degree
  num_neighbors self tr op tr' :
  valid_space space ->
  acc_size source_points <= INT_MAX ->
  MovingLeastSquares_init space source_points target_points crbf degree
    num_neighbors self tr = (Ok tt, op, tr') ->
  indices_in_range op.
Proof.
  intros Hsp Hfit H.
  apply init_returns in H
    as (_ & HN & _ & sv & _ & _ & He0 & He1 & _ & _ & Hcells); [|done].
  intros t j index Hvi.
  destruct (view2_at_in_range _ _ _ _ Hvi) as [Ht Hj].
  destruct (Hcells t j) as (o & index' & p & _ & _ & Hp & Hvi' & _).
  { lia. }
  { lia. }
  cbn [fst snd] in Hvi'. rewrite HN, (source_size_fits _ Hfit).
  apply acc_get_in_range in Hp. congruence.
Qed.

(** X13. Constructing and then interpolating composes as follows, for a
    number of source points that fits an [int]: with [offsets] and
    [indices] the result of the query that the constructor issued and
    [coeff] the coefficients of the operator, a call with source values
    of the length of the source set returns and leaves for target [t] the
    sum over [j = 0 .. K-1] of
    [coeff t j * value (indices (offsets t + j))]. *)
Theorem ctor_then_interpolate
  (space : ExecutionSpace) (source_points target_points : Points)
  (crbf : option CRBF) (degree : option PolynomialDegree)
  (num_neighbors : option Z) (self : MovingLeastSquares) (tr : list event)
  (op : MovingLeastSquares) (tr' : list event)
  (source_values : View1 src_value_t) (approx_in : View1 value_t)
  (tr0 : list event)
  (offsets indices : Z -> Z) (coeff : Z -> Z -> FloatingCalculationType)
  (value : Z -> src_value_t) :
  valid_space space ->
  acc_size source_points <= INT_MAX ->
  MovingLeastSquares_ctor space source_points target_points crbf degree
    num_neighbors self tr = (Ok tt, op, tr') ->
  let k := num_neighbors_val (default default_PolynomialDegree degree)
             num_neighbors in
  let q := ctor_query space source_points target_points k in
  let num_targets := to_int (acc_size target_points) in
  (forall t, 0 <= t < num_targets ->
     view1_at q.2 t = Ok (offsets t)) ->
  (forall t j, 0 <= t < num_targets -> 0 <= j < k ->
     view1_at q.1 (offsets t + j) = Ok (indices (offsets t + j)) /\
     view2_at (_coeffs op) t j = Ok (coeff t j)) ->
  extent_int source_values = acc_size source_points ->
  (forall n, 0 <= n < acc_size source_points ->
     view1_at source_values n = Ok (value n)) ->
  exists approx tr1,
    interpolate space source_values (mkFrame op approx_in) tr0
      = (Ok tt, mkFrame op approx, tr1) /\
    extent_int approx = num_targets /\
    forall t, 0 <= t < num_targets ->
      view1_at approx t
      = Ok (mls_sum k
              (fun j => times (coeff t j)
                          (value (indices (offsets t + j))))).
Proof.
  intros Hsp Hfit H k q num_targets Hoff Htab Hlen Hval.
  unfold MovingLeastSquares_ctor in H.
  pose proof (init_indices_in_range _ _ _ _ _ _ _ _ _ _ Hsp Hfit H)
    as Hrange.
  apply init_returns in H
    as (Hk & HN & _ & sv & _ & _ & He0 & He1 & _ & _ & Hcells); [|done].
  fold k in Hk, He1, Hcells. fold q in Hcells.
  fold num_targets in He0, Hcells.
  rewrite (source_size_fits _ Hfit) in HN.
  assert (HM : Z.of_nat (extent0 (_values_indices op)) = num_targets)
    by done.
  assert (HK : Z.of_nat (extent1 (_values_indices op)) = k) by lia.
  destruct (interpolate_sums space op source_values approx_in tr0 coeff
              (fun t j => indices (offsets t + j)) value)
    as (approx & tr1 & Hrun & Hext & Hsum); try done.
  - rewrite HM, HK. intros t j Ht Hj. split; [by apply Htab|].
    destruct (Hcells t j Ht Hj) as (o & index & p & Ho & Hix & _ & Hvi & _).
    cbn [fst snd] in Hvi. rewrite Hvi. f_equal.
    rewrite (Hoff t Ht) in Ho. injection Ho as <-.
    destruct (Htab t j Ht Hj) as [Hix' _]. congruence.
  - congruence.
  - rewrite HN. done.
  - exists approx, tr1. rewrite <- HM, <- HK. done.
Qed.

(** With no target there is nothing to fill: both tables are allocated
    with no row, and the loop has no iteration. *)
Lemma fill_without_targets space indices offsets k source_points self tr :
  valid_space space -> 0 <= k ->
  fillValuesIndicesAndGetSourceView space indices offsets 0 k
    source_points self tr
  = (Ok (mkView2 0 (Z.to_nat k) []),
     set_values_indices (mkView2 0 (Z.to_nat k) []) self, tr).
Proof.
  intros [_ Hmd] Hk.
  unfold fillValuesIndicesAndGetSourceView, view2_alloc.
  destruct (Z.ltb_spec k 0); [lia|]. cbn [Z.ltb Z.compare orb].
  unfold bind, lift, ret, modify, with_local, parallel_for_md.
  assert (md_range_order space (0, 0) (0, k) = []) as ->.
  { apply Permutation_nil_r. by rewrite (Hmd (0, 0) (0, k)). }
  done.
Qed.

(** X14. Without target points the constructor never reads the result of
    the query: whenever the number of neighbours is admissible it runs
    the solver on a table of coordinates with no row and ends as the
    solver does.  The operator has no row, and [interpolate] on an
    operator with these tables returns an empty output without reading
    any source value. *)
Theorem ctor_without_targets
  (space : ExecutionSpace) (source_points : Points)
  (crbf : option CRBF) (degree : option PolynomialDegree)
  (num_neighbors : option Z) (self : MovingLeastSquares) (tr : list event) :
  valid_space space ->
  let k := num_neighbors_val (default default_PolynomialDegree degree)
             num_neighbors in
  let N := to_int (acc_size source_points) in
  0 < k <= N ->
  let no_indices : View2 Z := mkView2 0 (Z.to_nat k) [] in
  let no_points : View2 Point := mkView2 0 (Z.to_nat k) [] in
  MovingLeastSquares_ctor space source_points [] crbf degree
    num_neighbors self tr
  = match movingLeastSquaresCoefficients (default default_CRBF crbf)
            (default default_PolynomialDegree degree) space no_points []
    with
    | Ok coeffs =>
        (Ok tt, mkMLS coeffs no_indices N,
         tr ++ [EvBuildTree; EvQuery; EvSolve])
    | Abort e =>
        (Abort e, mkMLS (_coeffs self) no_indices N,
         tr ++ [EvBuildTree; EvQuery; EvSolve])
    end /\
  forall coeffs source_values approx_in tr0,
    extent_int source_values = N ->
    interpolate space source_values
      (mkFrame (mkMLS coeffs no_indices N) approx_in) tr0
    = (Ok tt, mkFrame (mkMLS coeffs no_indices N) [],
       tr0 ++ [EvRealloc 0]).
Proof.
  intros Hsp k N Hk no_indices no_points. split.
  - unfold MovingLeastSquares_ctor.
    destruct (init_runs space source_points []
                (default default_CRBF crbf)
                (default default_PolynomialDegree degree) num_neighbors
                self tr Hsp) as (sv & self' & Hfill & Hrun).
    { done. }
    { by change (to_int (acc_size [])) with 0. }
    { intros i j Hi. change (to_int (acc_size [])) with 0 in Hi. lia. }
    change (to_int (acc_size [])) with 0 in Hfill.
    rewrite fill_without_targets in Hfill; [|done|fold k; lia].
    injection Hfill as <- <-. rewrite Hrun. done.
  - intros coeffs source_values approx_in tr0 Hlen.
    rewrite interpolate_run. cbn [this approx_values _source_size
      _values_indices no_indices extent0 extent1].
    rewrite Hlen, Z.eqb_refl. cbv zeta.
    assert (range_order space 0 (Z.of_nat 0) = []) as ->.
    { apply Permutation_nil_r. destruct Hsp as [Hr _].
      by rewrite (Hr 0 (Z.of_nat 0)). }
    done.
Qed.

End MovingLeastSquares.

(** ** Exact arithmetic *)

Section ExactArithmetic.

(** The values form a commutative ring, and coefficients, source values
    and approximated values are all of that ring. *)
Variable R : Type.
Variables (rO rI : R) (radd rmul rsub : R -> R -> R) (ropp : R -> R).
Hypothesis Rth : ring_theory rO rI radd rmul rsub ropp eq.

Add Ring Rring : Rth.

Variable Point : Type.
Variable dimension : nat.
Variable CRBF : Type.
Variable Wendland : nat -> CRBF.
Variable polynomialBasisSize : nat -> PolynomialDegree -> Z.
Variable BoundingVolumeHierarchy : Type.
Variable BVH_build :
  ExecutionSpace -> list (PairValueIndex Point) -> BoundingVolumeHierarchy.
Variable BVH_query :
  ExecutionSpace -> BoundingVolumeHierarchy ->
  MLSTargetPointsPredicateWrapper Point -> View1 Z * View1 Z.
Variable movingLeastSquaresCoefficients :
  CRBF -> PolynomialDegree -> ExecutionSpace -> View2 Point -> Points Point ->
  outcome (View2 R).
Hypothesis coefficients_table :
  forall crbf degree space source_view target_points coeffs,
    movingLeastSquaresCoefficients crbf degree space source_view
      target_points = Ok coeffs ->
    extent0 coeffs = extent0 source_view /\
    extent1 coeffs = extent1 source_view /\
    view2_filled coeffs.





(** *** Linearity *)

Lemma zero_combination (a b : R) : radd (rmul a rO) (rmul b rO) = rO.
Proof. ring. Qed.

(** The sum for one target, for source values that are a combination of
    two others. *)
Lemma row_value_linear (op : MovingLeastSquares R) (v1 v2 v3 : View1 R)
  (a b : R) (i : Z) (js : list Z) :
  (forall n p q, view1_at v1 n = Ok p -> view1_at v2 n = Ok q ->
     view1_at v3 n = Ok (radd (rmul a p) (rmul b q))) ->
  forall x y r1 r2,
  row_value R R R R rmul radd op v1 i js x = Ok r1 ->
  row_value R R R R rmul radd op v2 i js y = Ok r2 ->
  row_value R R R R rmul radd op v3 i js (radd (rmul a x) (rmul b y))
  = Ok (radd (rmul a r1) (rmul b r2)).
Proof.
  intros Hlin. induction js as [|j js IH]; intros x y r1 r2; simpl.
  - by intros [= <-] [= <-].
  - unfold term_value.
    destruct (view2_at (_coeffs R op) i j) as [c|]; [|discriminate].
    destruct (view2_at (_values_indices R op) i j) as [index|];
      [|discriminate].
    destruct (view1_at v1 index) as [p|] eqn:Hp; [|discriminate].
    destruct (view1_at v2 index) as [q|] eqn:Hq; [|discriminate].
    rewrite (Hlin index p q Hp Hq). intros H1 H2.
    replace (radd (radd (rmul a x) (rmul b y))
               (rmul c (radd (rmul a p) (rmul b q))))
      with (radd (rmul a (radd x (rmul c p))) (rmul b (radd y (rmul c q))))
      by ring.
    by apply IH.
Qed.

(** X15. In exact arithmetic [interpolate] is linear in the source
    values: when it ends well on two fields, it ends well on every field
    that holds [a * p + b * q] wherever the two hold [p] and [q], and it
    leaves for every target [a * x + b * y], for [x] and [y] the values it
    leaves for that target on the two fields. *)
Theorem interpolate_linear
  (space : ExecutionSpace) (op : MovingLeastSquares R)
  (values1 values2 values3 : View1 R) (in1 in2 in3 : View1 R)
  (tr1 tr2 tr3 : list event) (fr1 fr2 : Frame R R)
  (tr1' tr2' : list event) (a b : R) :
  valid_space space ->
  interpolate R R R R rO rmul radd space values1 (mkFrame R R op in1) tr1
    = (Ok tt, fr1, tr1') ->
  interpolate R R R R rO rmul radd space values2 (mkFrame R R op in2) tr2
    = (Ok tt, fr2, tr2') ->
  extent_int values3 = _source_size R op ->
  (forall n p q,
     view1_at values1 n = Ok p -> view1_at values2 n = Ok q ->
     view1_at values3 n = Ok (radd (rmul a p) (rmul b q))) ->
  exists fr3 tr3',
    interpolate R R R R rO rmul radd space values3 (mkFrame R R op in3) tr3
      = (Ok tt, fr3, tr3') /\
    forall t, 0 <= t < Z.of_nat (extent0 (_values_indices R op)) ->
      exists x y,
        view1_at (approx_values R R fr1) t = Ok x /\
        view1_at (approx_values R R fr2) t = Ok y /\
        view1_at (approx_values R R fr3) t
          = Ok (radd (rmul a x) (rmul b y)).
Proof.
  intros Hsp H1 H2 Hlen Hlin.
  apply interpolate_Ok_inv in H1 as (_ & a1 & w1 & Hloop1 & -> & _).
  apply interpolate_Ok_inv in H2 as (_ & a2 & w2 & Hloop2 & -> & _).
  apply approx_loop_Ok_cells in Hloop1 as (_ & _ & Hin1 & _).
  apply approx_loop_Ok_cells in Hloop2 as (_ & _ & Hin2 & _).
  set (M := extent0 (_values_indices R op)) in *.
  set (K := Z.of_nat (extent1 (_values_indices R op))) in *.
  set (d := fun (v : View1 R) t =>
         match row_value R R R R rmul radd op v t (Zrange 0 K) rO with
         | Ok x => x
         | Abort _ => rO
         end).
  destruct (approx_loop_values R R R R rO rmul radd op values3 K
              (fun t => radd (rmul a (d values1 t)) (rmul b (d values2 t)))
              (range_order space 0 (Z.of_nat M)) (replicate M None))
    as (a3 & Hloop3 & Hin3 & _).
  { intros t Ht. pose proof Ht as Ht'%range_order_elem; [|done]. split.
    - rewrite length_replicate. by apply in_range_spec.
    - destruct (Hin1 t Ht) as (x & Hx & _).
      destruct (Hin2 t Ht) as (y & Hy & _).
      unfold d. rewrite Hx, Hy.
      rewrite <- (zero_combination a b) at 1.
      by apply (row_value_linear op values1 values2 values3). }
  exists (mkFrame R R op a3). eexists. split.
  - rewrite interpolate_run. cbn [this approx_values].
    rewrite Hlen, Z.eqb_refl. cbv zeta. fold M K. by rewrite Hloop3.
  - intros t Ht%(range_order_elem space); [|done].
    destruct (Hin1 t Ht) as (x & Hx & Hat1).
    destruct (Hin2 t Ht) as (y & Hy & Hat2).
    exists x, y. cbn [approx_values]. split_and!; [done..|].
    rewrite (Hin3 t Ht). unfold d. by rewrite Hx, Hy.
Qed.

End ExactArithmetic.

(** ** Rounded arithmetic *)


Section RoundedArithmetic.

(** The values are floating-point numbers.  A value of each of the four
    types stands for a rational number, and the two operations of the
    loop are rounded: the result of [c * v] and the result of [tmp += p]
    stand for numbers within the relative error [u] of the product and
    of the sum of the numbers of the operands.  Binary floating point
    with [p] bits and rounding to nearest computes so with [u = 2 ^ -p],
    as long as no result overflows or underflows.  [value_t tmp = 0]
    stands for zero. *)
Variables FloatingCalculationType src_value_t product_t value_t : Type.
Variable zero : value_t.
Variable times : FloatingCalculationType -> src_value_t -> product_t.
Variable plus_assign : value_t -> product_t -> value_t.

Variable coeff_number : FloatingCalculationType -> Q.
Variable source_number : src_value_t -> Q.
Variable product_number : product_t -> Q.
Variable value_number : value_t -> Q.

Variable u : Q.
Hypothesis u_nonneg : (0 <= u)%Q.
Hypothesis zero_exact : (value_number zero == 0)%Q.
Hypothesis times_rounded :
  forall a b,
    (Qabs (product_number (times a b) - coeff_number a * source_number b)
     <= u * Qabs (coeff_number a * source_number b))%Q.
Hypothesis plus_assign_rounded :
  forall t p,
    (Qabs (value_number (plus_assign t p) - (value_number t + product_number p))
     <= u * Qabs (value_number t + product_number p))%Q.





Variable Point : Type.
Variable dimension : nat.
Variable CRBF : Type.
Variable Wendland : nat -> CRBF.
Variable polynomialBasisSize : nat -> PolynomialDegree -> Z.
Variable BoundingVolumeHierarchy : Type.
Variable BVH_build :
  ExecutionSpace -> list (PairValueIndex Point) -> BoundingVolumeHierarchy.
Variable BVH_query :
  ExecutionSpace -> BoundingVolumeHierarchy ->
  MLSTargetPointsPredicateWrapper Point -> View1 Z * View1 Z.
Variable movingLeastSquaresCoefficients :
  CRBF -> PolynomialDegree -> ExecutionSpace -> View2 Point -> Points Point ->
  outcome (View2 FloatingCalculationType).
Hypothesis coefficients_table :
  forall crbf degree space source_view target_points coeffs,
    movingLeastSquaresCoefficients crbf degree space source_view
      target_points = Ok coeffs ->
    extent0 coeffs = extent0 source_view /\
    extent1 coeffs = extent1 source_view /\
    view2_filled coeffs.




Lemma fold_sum_nonneg (g : Z -> Q) (l : list Z) (a : Q) :
  (forall j, 0 <= g j)%Q -> (0 <= a)%Q ->
  (0 <= fold_left (fun s j => s + g j) l a)%Q.
Proof.
  intros Hg. revert a. induction l as [|j l IH]; intros a Ha; simpl;
    [done|].
  apply IH. pose proof (Hg j). lra.
Qed.




End RoundedArithmetic.

(** ** Constant fields *)


Section ConstantField.

Variable Point : Type.
Variable dimension : nat.
Variable CRBF : Type.
Variable Wendland : nat -> CRBF.
Variable polynomialBasisSize : nat -> PolynomialDegree -> Z.
Variable BoundingVolumeHierarchy : Type.
Variable BVH_build :
  ExecutionSpace -> list (PairValueIndex Point) -> BoundingVolumeHierarchy.
Variable BVH_query :
  ExecutionSpace -> BoundingVolumeHierarchy ->
  MLSTargetPointsPredicateWrapper Point -> View1 Z * View1 Z.

(** Exact arithmetic: the values of a ring [R], with a solver for it. *)
Variable R : Type.
Variables (rO rI : R) (radd rmul rsub : R -> R -> R) (ropp : R -> R).
Variable solve_exact :
  CRBF -> PolynomialDegree -> ExecutionSpace -> View2 Point -> Points Point ->
  outcome (View2 R).

(** Rounded arithmetic: four types of floating-point values with the
    numbers they stand for, and a solver for the type of the
    coefficients. *)
Variables FloatingCalculationType src_value_t product_t value_t : Type.
Variable zero : value_t.
Variable times : FloatingCalculationType -> src_value_t -> product_t.
Variable plus_assign : value_t -> product_t -> value_t.
Variable coeff_number : FloatingCalculationType -> Q.
Variable source_number : src_value_t -> Q.
Variable product_number : product_t -> Q.
Variable value_number : value_t -> Q.
Variable u : Q.
Variable solve_rounded :
  CRBF -> PolynomialDegree -> ExecutionSpace -> View2 Point -> Points Point ->
  outcome (View2 FloatingCalculationType).


End ConstantField.


(** ** An instance on the integer line *)

(** Points are integers, the tree is the list of indexed source points
    and answers a query by sorting it by distance to the target, and the
    solver gives every target the same row of weights.  The values are
    integers with their sum and product. *)
Module Line.

Definition dimension : nat := 1.

Definition Kernel : Type := nat.
Definition Wendland (n : nat) : Kernel := n.

Fixpoint binomial (n k : nat) : nat :=
  match n, k with
  | _, O => 1
  | O, S _ => 0
  | S n', S k' => binomial n' k' + binomial n' (S k')
  end.

(** Modelled from the spec: [polynomialBasisSize] is not part of the
    sources.  It is the number of polynomial basis terms for dimension
    [D] and degree [d]: the monomials in [D] variables of total degree at
    most [d], of which there are [binomial (D + d) d]. *)
Definition polynomialBasisSize (D : nat) (d : PolynomialDegree) : Z :=
  Z.of_nat (binomial (D + d) d).

Definition Tree : Type := list (PairValueIndex Z).

Definition build (_ : ExecutionSpace) (l : list (PairValueIndex Z)) : Tree := l.

Fixpoint insert_by_distance (p : Z) (x : PairValueIndex Z) (l : Tree) : Tree :=
  match l with
  | [] => [x]
  | y :: l' =>
      if Z.abs (x.1 - p) <=? Z.abs (y.1 - p) then x :: l
      else y :: insert_by_distance p x l'
  end.

Definition nearest_indices (tree : Tree) (q : Nearest Z) : list Z :=
  map snd (take (Z.to_nat (nearest_k Z q))
             (foldr (insert_by_distance (nearest_geometry Z q)) [] tree)).

Fixpoint offsets_from (o : Z) (found : list (list Z)) : list Z :=
  match found with
  | [] => [o]
  | r :: found' => o :: offsets_from (o + Z.of_nat (length r)) found'
  end.

Definition query (_ : ExecutionSpace) (tree : Tree)
  (predicates : MLSTargetPointsPredicateWrapper Z) : View1 Z * View1 Z :=
  let found :=
    map (fun i => match predicates_get Z predicates i with
                  | Ok q => nearest_indices tree q
                  | Abort _ => []
                  end)
        (Zrange 0 (predicates_size Z predicates)) in
  (map Some (concat found), map Some (offsets_from 0 found)).

Definition solve (weights : list Z) (_ : Kernel) (_ : PolynomialDegree)
  (_ : ExecutionSpace) (source_view : View2 Z) (_ : Points Z)
  : outcome (View2 Z) :=
  Ok (mkView2 (extent0 source_view) (extent1 source_view)
        (replicate (extent0 source_view)
           (map (fun j => Some (nth j weights 0))
              (seq 0 (extent1 source_view))))).

Definition Operator : Type := MovingLeastSquares Z.

Definition construct (weights : list Z) :=
  MovingLeastSquares_ctor Z dimension Kernel Wendland polynomialBasisSize Z
    Tree build query (solve weights).

Definition built (weights : list Z) : Operator -> Prop :=
  constructed Z dimension Kernel Wendland polynomialBasisSize Z
    Tree build query (solve weights).

Definition interpolate :=
  interpolate Z Z Z Z 0 Z.mul Z.add.

(** Five sources and two targets; three neighbours per target, taken
    with the weights of the quadratic through three values. *)
Definition sources : Points Z := [0; 10; 20; 30; 40].
Definition targets : Points Z := [12; 33].
Definition weights : list Z := [3; -3; 1].

Definition op : Operator :=
  (construct weights Serial sources targets None None None
     (fresh_object Z 0) []).1.2.

Definition squares : View1 Z := map Some [0; 1; 4; 9; 16].
Definition cubes : View1 Z := map Some [0; 1; 8; 27; 64].

(** The same targets over other sources: one source point moved, and one
    source point more. *)
Definition sources_moved : Points Z := [0; 11; 20; 30; 40].
Definition sources_more : Points Z := [0; 10; 20; 30; 40; 50].

Definition op_moved : Operator :=
  (construct weights Serial sources_moved targets None None None
     (fresh_object Z 0) []).1.2.

Definition op_more : Operator :=
  (construct weights Serial sources_more targets None None None
     (fresh_object Z 0) []).1.2.

(** The tables of [op], as functions. *)
Definition coeff (t j : Z) : Z := nth (Z.to_nat j) weights 0.

Definition index (t j : Z) : Z :=
  nth (Z.to_nat j) (nth (Z.to_nat t) [[1; 2; 0]; [3; 4; 2]] []) 0.

Lemma solve_table (w : list Z) :
  forall crbf degree space source_view target_points coeffs,
    solve w crbf degree space source_view target_points = Ok coeffs ->
    extent0 coeffs = extent0 source_view /\
    extent1 coeffs = extent1 source_view /\
    view2_filled coeffs.
Proof.
  intros crbf degree space sv tgt coeffs [= <-]. split_and!; [done..|].
  intros i j Hi Hj. unfold view2_at. cbn [extent0 extent1 rows] in *.
  rewrite Hi, Hj. cbn [andb].
  apply in_range_spec in Hi. apply in_range_spec in Hj.
  rewrite lookup_replicate_2 by lia.
  destruct (lookup_lt_is_Some_2
              (map (fun j => Some (nth j w 0)) (seq 0 (extent1 sv)))
              (Z.to_nat j)) as [c Hc].
  { rewrite length_map, length_seq. lia. }
  rewrite Hc. apply list_elem_of_lookup_2, list_elem_of_In, in_map_iff in Hc
    as (n & <- & _). eauto.
Qed.

Lemma built_op : built weights op.
Proof.
  exists Serial, sources, targets, None, None, None, 0,
    [EvBuildTree; EvQuery; EvSolve].
  split; [apply Serial_valid|]. by vm_compute.
Qed.

Lemma built_op_moved : built weights op_moved.
Proof.
  exists Serial, sources_moved, targets, None, None, None, 0,
    [EvBuildTree; EvQuery; EvSolve].
  split; [apply Serial_valid|]. by vm_compute.
Qed.

Lemma built_op_more : built weights op_more.
Proof.
  exists Serial, sources_more, targets, None, None, None, 0,
    [EvBuildTree; EvQuery; EvSolve].
  split; [apply Serial_valid|]. by vm_compute.
Qed.

Lemma interpolate_weighted_sums_witness :
  exists approx tr',
    interpolate Serial squares (mkFrame Z Z op []) []
      = (Ok tt, mkFrame Z Z op approx, tr') /\
    extent_int approx = 2 /\
    forall t, 0 <= t < 2 ->
      view1_at approx t
      = Ok (mls_sum Z Z 0 Z.add 3
              (fun j => coeff t j * (index t j * index t j))).
Proof.
  apply (interpolate_weighted_sums Z dimension Kernel Wendland
           polynomialBasisSize Z Z Z Z 0 Z.mul Z.add Tree build query
           (solve weights) (solve_table weights)
           Serial op squares [] [] coeff index (fun n => n * n)).
  - apply Serial_valid.
  - apply built_op.
  - intros t j Ht Hj.
    change (Z.of_nat (extent0 (_values_indices Z op))) with 2 in Ht.
    change (Z.of_nat (extent1 (_values_indices Z op))) with 3 in Hj.
    assert (t = 0 \/ t = 1) as [-> | ->] by lia;
      (assert (j = 0 \/ j = 1 \/ j = 2) as [-> | [-> | ->]] by lia);
      by vm_compute.
  - reflexivity.
  - intros n Hn. change (_source_size Z op) with 5 in Hn.
    assert (n = 0 \/ n = 1 \/ n = 2 \/ n = 3 \/ n = 4)
      as [-> | [-> | [-> | [-> | ->]]]] by lia; reflexivity.
Defined.

Lemma interpolate_reallocates_output_witness :
  extent_int
    (approx_values Z Z
       (interpolate Serial squares
          (mkFrame Z Z op [Some 7; Some 7; Some 7; Some 7]) []).1.2) = 2 /\
  exists written,
    (interpolate Serial squares
       (mkFrame Z Z op [Some 7; Some 7; Some 7; Some 7]) []).2
    = [] ++ EvRealloc 2 :: map EvWriteApprox written.
Proof.
  apply (interpolate_reallocates_output Z Z Z Z 0 Z.mul Z.add Serial op
           squares [Some 7; Some 7; Some 7; Some 7] []).
  reflexivity.
Defined.

Lemma fill_reshapes_query_result_witness :
  exists source_view self',
    fillValuesIndicesAndGetSourceView Z Z Serial
      (map Some [1; 2; 0; 3; 4; 2]) (map Some [0; 3; 6]) 2 3 sources
      (fresh_object Z 0) []
    = (Ok source_view, self', []) /\
    Z.of_nat (extent0 (_values_indices Z self')) = 2 /\
    Z.of_nat (extent1 (_values_indices Z self')) = 3 /\
    Z.of_nat (extent0 source_view) = 2 /\
    Z.of_nat (extent1 source_view) = 3 /\
    forall t j, 0 <= t < 2 -> 0 <= j < 3 ->
      exists o index p,
        view1_at (map Some [0; 3; 6]) t = Ok o /\
        view1_at (map Some [1; 2; 0; 3; 4; 2]) (o + j) = Ok index /\
        acc_get Z sources index = Ok p /\
        view2_at (_values_indices Z self') t j = Ok index /\
        view2_at source_view t j = Ok p.
Proof.
  apply (fill_reshapes_query_result Z Z Serial
           (map Some [1; 2; 0; 3; 4; 2]) (map Some [0; 3; 6]) 2 3 sources
           (fresh_object Z 0) []).
  - apply Serial_valid.
  - lia.
  - lia.
  - intros t j Ht Hj.
    assert (t = 0 \/ t = 1) as [-> | ->] by lia;
      (assert (j = 0 \/ j = 1 \/ j = 2) as [-> | [-> | ->]] by lia);
      do 3 eexists; split_and!; reflexivity.
Defined.

Lemma ctor_rejects_neighbor_count_witness :
  construct weights Serial sources targets None None (Some 6)
    (fresh_object Z 0) []
  = (Abort ConfigurationError, set_source_size Z 5 (fresh_object Z 0), []).
Proof.
  apply (ctor_rejects_neighbor_count Z dimension Kernel Wendland
           polynomialBasisSize Z Tree build query (solve weights)
           Serial sources targets None None (Some 6) (fresh_object Z 0) []).
  right. reflexivity.
Defined.


(** With the arguments left out the instance takes three neighbours per
    target: the constant, the linear and the quadratic term on the line. *)
Example default_neighbors_on_the_line :
  polynomialBasisSize dimension default_PolynomialDegree = 3 /\
  extent1 (_values_indices Z op) = 3%nat.
Proof. split; reflexivity. Qed.

Lemma operator_retains_tables_and_size_witness :
  sources <> sources_moved /\
  op = op_moved /\
  forall space source_values approx_in tr,
    interpolate space source_values (mkFrame Z Z op approx_in) tr
    = interpolate space source_values (mkFrame Z Z op_moved approx_in) tr.
Proof.
  split; [discriminate|].
  apply (operator_retains_tables_and_size Z dimension Kernel Wendland
           polynomialBasisSize Z Z Z Z 0 Z.mul Z.add Tree build query
           (solve weights) op op_moved built_op built_op_moved);
    reflexivity.
Defined.

(** C7, as stated, fails: [op] and [op_more] are constructed operators
    with the same table of neighbour indices and the same table of
    coefficients, yet they differ in the number of source points they
    have recorded, and [interpolate] accepts five source values on the
    first and refuses them on the second. *)
Lemma operator_retains_more_than_tables :
  built weights op /\ built weights op_more /\
  _values_indices Z op = _values_indices Z op_more /\
  _coeffs Z op = _coeffs Z op_more /\
  _source_size Z op = 5 /\ _source_size Z op_more = 6 /\
  op <> op_more /\
  (interpolate Serial squares (mkFrame Z Z op []) []).1.1 = Ok tt /\
  (interpolate Serial squares (mkFrame Z Z op_more []) []).1.1
    = Abort ContractViolation.
Proof.
  split_and!; try reflexivity.
  - apply built_op.
  - apply built_op_more.
  - intros H. apply (f_equal (_source_size Z)) in H. by vm_compute in H.
Qed.

Lemma interpolate_reuse_independent_witness :
  (interpolate Serial squares (mkFrame Z Z op [Some 1]) []).1.2
    = mkFrame Z Z op [Some (-9); Some (-17)] /\
  (interpolate Serial cubes (mkFrame Z Z op [Some (-9); Some (-17)])
     [EvRealloc 2; EvWriteApprox 0; EvWriteApprox 1]).1.2
    = mkFrame Z Z op [Some (-21); Some (-103)] /\
  forall (a' : View1 Z) (tr' : list event),
    (interpolate Serial squares (mkFrame Z Z op_moved a') tr').1.1 = Ok tt /\
    (interpolate Serial cubes (mkFrame Z Z op_moved a') tr').1.1 = Ok tt /\
    approx_values Z Z
      (interpolate Serial squares (mkFrame Z Z op_moved a') tr').1.2
      = [Some (-9); Some (-17)] /\
    approx_values Z Z
      (interpolate Serial cubes (mkFrame Z Z op_moved a') tr').1.2
      = [Some (-21); Some (-103)].
Proof.
  split; [reflexivity|]. split; [reflexivity|].
  intros a' tr'.
  destruct (interpolate_reuse_independent Z Z Z Z 0 Z.mul Z.add Serial op
              squares cubes [Some 1] [])
    as (_ & _ & H).
  destruct (H op_moved a' tr' eq_refl eq_refl eq_refl)
    as (H1 & H2 & H3 & H4).
  split_and!.
  - exact H1.
  - exact H2.
  - exact (H3 eq_refl).
  - exact (H4 eq_refl).
Defined.

Lemma interpolate_accesses_in_bounds_witness :
  (interpolate Serial squares (mkFrame Z Z op []) []).1.1
    <> Abort OutOfBounds /\
  ((interpolate Serial squares (mkFrame Z Z op []) []).1.1 = Ok tt \/
   (interpolate Serial squares (mkFrame Z Z op []) []).1.1
     = Abort UninitializedRead).
Proof.
  apply (interpolate_accesses_in_bounds Z dimension Kernel Wendland
           polynomialBasisSize Z Z Z Z 0 Z.mul Z.add Tree build query
           (solve weights) (solve_table weights) Serial op squares [] []).
  - apply Serial_valid.
  - apply built_op.
  - intros t j index H.
    destruct (view2_at_in_range _ _ _ _ H) as [Ht Hj].
    change (Z.of_nat (extent0 (_values_indices Z op))) with 2 in Ht.
    change (Z.of_nat (extent1 (_values_indices Z op))) with 3 in Hj.
    change (_source_size Z op) with 5.
    assert (t = 0 \/ t = 1) as [-> | ->] by lia;
      (assert (j = 0 \/ j = 1 \/ j = 2) as [-> | [-> | ->]] by lia);
      vm_compute in H; injection H as <-; lia.
  - reflexivity.
Defined.

(** ** Further instances: another execution order, and no targets *)

(** An execution space that runs every range backwards. *)
Definition Reverse : ExecutionSpace :=
  {| range_order := fun b e => reverse (Zrange b e);
     md_range_order := fun b e => reverse (Zrange2 b e) |}.

Lemma Reverse_valid : valid_space Reverse.
Proof. split; intros b e; apply reverse_Permutation. Qed.

(** The query result of the instance, flat, and a field that agrees with
    [squares] on the neighbours of target 0 only. *)
Definition found : list Z := [1; 2; 0; 3; 4; 2].
Definition squares_far : View1 Z := map Some [0; 1; 4; 100; 200].
Definition mixed : View1 Z := map Some [0; 1; 0; -9; -32].

Local Ltac below2 t Ht :=
  assert (t = 0 \/ t = 1) as [-> | ->]
    by (assert (0 <= t < 2) by exact Ht; lia).

Local Ltac below3 j Hj :=
  assert (j = 0 \/ j = 1 \/ j = 2) as [-> | [-> | ->]]
    by (assert (0 <= j < 3) by exact Hj; lia).

Local Ltac below5 n Hn :=
  assert (n = 0 \/ n = 1 \/ n = 2 \/ n = 3 \/ n = 4)
    as [-> | [-> | [-> | [-> | ->]]]]
    by (assert (0 <= n < 5) by exact Hn; lia).

Lemma ctor_operator_shape_witness :
  0 < 3 <= 5 /\
  _source_size Z op = 5 /\
  Z.of_nat (extent0 (_values_indices Z op)) = 2 /\
  Z.of_nat (extent1 (_values_indices Z op)) = 3 /\
  [EvBuildTree; EvQuery; EvSolve] = [] ++ [EvBuildTree; EvQuery; EvSolve] /\
  exists source_view,
    solve weights (Wendland 0) 2%nat Serial source_view targets
      = Ok (_coeffs Z op) /\
    Z.of_nat (extent0 source_view) = 2 /\
    Z.of_nat (extent1 source_view) = 3.
Proof.
  apply (ctor_operator_shape Z dimension Kernel Wendland polynomialBasisSize
           Z Tree build query (solve weights)
           Serial sources targets None None None (fresh_object Z 0) []
           op [EvBuildTree; EvQuery; EvSolve]).
  - apply Serial_valid.
  - by vm_compute.
Defined.

Lemma ctor_indices_from_query_witness :
  exists o index,
    view1_at (ctor_query Z Tree build query Serial sources targets 3).2 1
      = Ok o /\
    view1_at (ctor_query Z Tree build query Serial sources targets 3).1 (o + 2)
      = Ok index /\
    view2_at (_values_indices Z op) 1 2 = Ok index /\
    0 <= index < 5 /\
    (5 <= INT_MAX -> index < _source_size Z op).
Proof.
  apply (ctor_indices_from_query Z dimension Kernel Wendland
           polynomialBasisSize Z Tree build query (solve weights)
           Serial sources targets None None None (fresh_object Z 0) []
           op [EvBuildTree; EvQuery; EvSolve]).
  - apply Serial_valid.
  - by vm_compute.
  - change (0 <= 1 < 2). lia.
  - change (0 <= 2 < 3). lia.
Defined.

Lemma ctor_returns_witness :
  exists source_view self',
    fillValuesIndicesAndGetSourceView Z Z Serial
      (map Some found) (map Some [0; 3; 6]) 2 3 sources
      (set_source_size Z 5 (fresh_object Z 0)) [EvBuildTree; EvQuery]
    = (Ok source_view, self', [EvBuildTree; EvQuery]) /\
    construct weights Serial sources targets None None None
      (fresh_object Z 0) []
    = match solve weights (Wendland 0) 2%nat Serial source_view targets with
      | Ok coeffs =>
          (Ok tt, set_coeffs Z coeffs self',
           [EvBuildTree; EvQuery; EvSolve])
      | Abort e => (Abort e, self', [EvBuildTree; EvQuery; EvSolve])
      end.
Proof.
  apply (ctor_returns Z dimension Kernel Wendland polynomialBasisSize
           Z Tree build query (solve weights)
           Serial sources targets None None None (fresh_object Z 0) []).
  - apply Serial_valid.
  - change (0 < 3 <= 5). lia.
  - change (0 <= 2). lia.
  - intros t j Ht Hj. below2 t Ht; below3 j Hj;
      do 3 eexists; split_and!; reflexivity.
Defined.

Lemma fill_returns_iff_readable_witness :
  (exists source_view self' tr',
     fillValuesIndicesAndGetSourceView Z Z Serial
       (map Some found) (map Some [0; 3; 6]) 2 3 sources
       (fresh_object Z 0) []
     = (Ok source_view, self', tr')) <->
  (forall t j, 0 <= t < 2 -> 0 <= j < 3 ->
     exists o index p,
       view1_at (map Some [0; 3; 6]) t = Ok o /\
       view1_at (map Some found) (o + j) = Ok index /\
       acc_get Z sources index = Ok p).
Proof.
  apply (fill_returns_iff_readable Z Z Serial
           (map Some found) (map Some [0; 3; 6]) 2 3 sources
           (fresh_object Z 0) []).
  - apply Serial_valid.
  - lia.
  - lia.
Defined.

Lemma fill_order_independent_witness :
  fillValuesIndicesAndGetSourceView Z Z Reverse
    (map Some found) (map Some [0; 3; 6]) 2 3 sources (fresh_object Z 0) []
  = (Ok (mkView2 2 3 [map Some [10; 20; 0]; map Some [30; 40; 20]]),
     mkMLS Z view2_empty
       (mkView2 2 3 [map Some [1; 2; 0]; map Some [3; 4; 2]]) 0,
     []).
Proof.
  apply (fill_order_independent Z Z Serial Reverse
           (map Some found) (map Some [0; 3; 6]) 2 3 sources
           (fresh_object Z 0) []).
  - apply Serial_valid.
  - apply Reverse_valid.
  - reflexivity.
Defined.

Lemma interpolate_writes_each_target_once_witness :
  extent_int [Some (-9); Some (-17)] = 2 /\
  (forall t, 0 <= t < 2 ->
     exists v, view1_at [Some (-9); Some (-17)] t = Ok v) /\
  exists written,
    [EvRealloc 2; EvWriteApprox 1; EvWriteApprox 0]
      = [] ++ EvRealloc 2 :: map EvWriteApprox written /\
    written ≡ₚ Zrange 0 2.
Proof.
  apply (interpolate_writes_each_target_once Z Z Z Z 0 Z.mul Z.add
           Reverse op squares [Some 1] []
           (mkFrame Z Z op [Some (-9); Some (-17)])
           [EvRealloc 2; EvWriteApprox 1; EvWriteApprox 0]).
  - apply Reverse_valid.
  - reflexivity.
Defined.

Lemma interpolate_order_independent_witness :
  exists tr'',
    interpolate Reverse squares (mkFrame Z Z op [Some 1]) []
    = (Ok tt, mkFrame Z Z op [Some (-9); Some (-17)], tr'').
Proof.
  apply (interpolate_order_independent Z Z Z Z 0 Z.mul Z.add
           Serial Reverse op squares [Some 1] []
           (mkFrame Z Z op [Some (-9); Some (-17)])
           [EvRealloc 2; EvWriteApprox 0; EvWriteApprox 1]).
  - apply Serial_valid.
  - apply Reverse_valid.
  - reflexivity.
Defined.

Lemma interpolate_reads_only_neighbors_witness :
  view1_at
    (approx_values Z Z
       (interpolate Serial squares (mkFrame Z Z op []) []).1.2) 0
  = view1_at
      (approx_values Z Z
         (interpolate Serial squares_far (mkFrame Z Z op [Some 1]) []).1.2) 0.
Proof.
  apply (interpolate_reads_only_neighbors Z Z Z Z 0 Z.mul Z.add
           Serial op squares squares_far [] [Some 1] [] []
           (mkFrame Z Z op [Some (-9); Some (-17)])
           (mkFrame Z Z op [Some (-9); Some (-296)])
           [EvRealloc 2; EvWriteApprox 0; EvWriteApprox 1]
           [EvRealloc 2; EvWriteApprox 0; EvWriteApprox 1] 0).
  - apply Serial_valid.
  - reflexivity.
  - reflexivity.
  - change (0 <= 0 < 2). lia.
  - intros j index H.
    destruct (view2_at_in_range _ _ _ _ H) as [_ Hj].
    below3 j Hj; vm_compute in H; injection H as <-; reflexivity.
Defined.

Lemma ctor_then_interpolate_witness :
  exists approx tr1,
    interpolate Serial squares (mkFrame Z Z op []) []
      = (Ok tt, mkFrame Z Z op approx, tr1) /\
    extent_int approx = 2 /\
    forall t, 0 <= t < 2 ->
      view1_at approx t
      = Ok (mls_sum Z Z 0 Z.add 3
              (fun j => coeff t j *
                        (nth (Z.to_nat (3 * t + j)) found 0 *
                         nth (Z.to_nat (3 * t + j)) found 0))).
Proof.
  apply (ctor_then_interpolate Z dimension Kernel Wendland
           polynomialBasisSize Z Z Z Z 0 Z.mul Z.add Tree build query
           (solve weights)
           Serial sources targets None None None (fresh_object Z 0) []
           op [EvBuildTree; EvQuery; EvSolve] squares [] []
           (fun t => 3 * t) (fun n => nth (Z.to_nat n) found 0) coeff
           (fun n => n * n)).
  - apply Serial_valid.
  - by vm_compute.
  - by vm_compute.
  - intros t Ht. below2 t Ht; reflexivity.
  - intros t j Ht Hj. below2 t Ht; below3 j Hj; split; reflexivity.
  - reflexivity.
  - intros n Hn. below5 n Hn; reflexivity.
Defined.

Lemma ctor_without_targets_witness :
  construct weights Serial sources [] None None None (fresh_object Z 0) []
  = (Ok tt, mkMLS Z (mkView2 0 3 []) (mkView2 0 3 []) 5,
     [EvBuildTree; EvQuery; EvSolve]) /\
  forall coeffs source_values approx_in tr0,
    extent_int source_values = 5 ->
    interpolate Serial source_values
      (mkFrame Z Z (mkMLS Z coeffs (mkView2 0 3 []) 5) approx_in) tr0
    = (Ok tt, mkFrame Z Z (mkMLS Z coeffs (mkView2 0 3 []) 5) [],
       tr0 ++ [EvRealloc 0]).
Proof.
  apply (ctor_without_targets Z dimension Kernel Wendland
           polynomialBasisSize Z Z Z Z 0 Z.mul Z.add Tree build query
           (solve weights)
           Serial sources None None None (fresh_object Z 0) []).
  - apply Serial_valid.
  - change (0 < 3 <= 5). lia.
Defined.

Lemma interpolate_linear_witness :
  exists fr3 tr3',
    interpolate Serial mixed (mkFrame Z Z op []) [] = (Ok tt, fr3, tr3') /\
    forall t, 0 <= t < 2 ->
      exists x y,
        view1_at [Some (-9); Some (-17)] t = Ok x /\
        view1_at [Some (-21); Some (-103)] t = Ok y /\
        view1_at (approx_values Z Z fr3) t = Ok (2 * x + -1 * y).
Proof.
  apply (interpolate_linear Z 0 1 Z.add Z.mul Z.sub Z.opp InitialRing.Zth
           Serial op squares cubes mixed [] [] [] [] [] []
           (mkFrame Z Z op [Some (-9); Some (-17)])
           (mkFrame Z Z op [Some (-21); Some (-103)])
           [EvRealloc 2; EvWriteApprox 0; EvWriteApprox 1]
           [EvRealloc 2; EvWriteApprox 0; EvWriteApprox 1] 2 (-1)).
  - apply Serial_valid.
  - reflexivity.
  - reflexivity.
  - reflexivity.
  - intros n p q Hp Hq. unfold view1_at in Hp.
    destruct (in_range n (length squares)) eqn:Hn; [|discriminate].
    apply in_range_spec in Hn.
    below5 n Hn; vm_compute in Hp; vm_compute in Hq;
      injection Hp as <-; injection Hq as <-; reflexivity.
Defined.

Lemma ctor_rejects_oversized_source_witness :
  MovingLeastSquares_ctor Z dimension Kernel Wendland polynomialBasisSize Z
    Tree build query (solve weights)
    Serial (replicate (Z.to_nat (2 ^ 31)) 0) targets None None (Some 3)
    (fresh_object Z 0) []
  = (Abort ConfigurationError,
     set_source_size Z
       (acc_size Z (replicate (Z.to_nat (2 ^ 31)) 0) - 2 ^ 32)
       (fresh_object Z 0), []).
Proof.
  apply (ctor_rejects_oversized_source Z dimension Kernel Wendland
           polynomialBasisSize Z Tree build query (solve weights)
           Serial (replicate (Z.to_nat (2 ^ 31)) 0) targets None None
           (Some 3) (fresh_object Z 0) []).
  unfold acc_size. rewrite length_replicate, Z2Nat.id by lia.
  unfold INT_MAX. lia.
Defined.


End Line.

(** ** The instance on the line with rounded rational values *)

(** The points, the tree and the query are those of [Line]; the
    coefficients and the values are rational numbers, and the arithmetic
    rounds: every product comes out too large and every sum too small,
    by one part in 1024. *)
Module RoundedLine.

Definition solve (weights : list Q) (_ : Line.Kernel) (_ : PolynomialDegree)
  (_ : ExecutionSpace) (source_view : View2 Z) (_ : Points Z)
  : outcome (View2 Q) :=
  Ok (mkView2 (extent0 source_view) (extent1 source_view)
        (replicate (extent0 source_view)
           (map (fun j => Some (nth j weights 0%Q))
              (seq 0 (extent1 source_view))))).

Definition weights : list Q := [3 # 2; - 7 # 10; 1 # 5]%Q.

Definition op : MovingLeastSquares Q :=
  (MovingLeastSquares_ctor Z Line.dimension Line.Kernel Line.Wendland
     Line.polynomialBasisSize Q Line.Tree Line.build Line.query
     (solve weights) Serial Line.sources Line.targets None None None
     (fresh_object Q 0) []).1.2.

Definition u : Q := 1 # 1024.
Definition times (a b : Q) : Q := (a * b * (1 + u))%Q.
Definition plus_assign (t p : Q) : Q := ((t + p) * (1 - u))%Q.

Definition coeff (t j : Z) : Q := nth (Z.to_nat j) weights 0%Q.







End RoundedLine.
